(** * Unisolation Tracker: the state machine of [App.tsx], its persistence
    and its snapshot codec, as a shallow embedding.

    Layout of the development:
    - JavaScript strings (sequences of UTF-16 code units) and JSON values;
    - the platform functions the program composes ([encodeURIComponent],
      [unescape], [btoa], [atob], [escape], [decodeURIComponent],
      [JSON.stringify], [JSON.parse]), each written after the algorithm of
      its standard (ECMA-262, WHATWG HTML/Infra, RFC 3629, RFC 4648);
    - the program itself: [STEPS], [toKey], [bootstrap], [initial],
      [setActive], [share], [reset], [nextFor], [advance], the input
      handlers and the persistence effect;
    - the properties. *)

From stdpp Require Import base numbers option list strings gmap.
From Stdlib Require Import Lia.

Local Open Scope N_scope.

(** Division and remainder by constants are handed to [lia]. *)
Ltac Zify.zify_post_hook ::= Z.to_euclidean_division_equations.

(** ** JavaScript strings *)

(** A JavaScript string is a sequence of 16-bit code units; a code unit is
    kept as an [N], and [wf_string] says that every unit fits in 16 bits. *)
Abbreviation jstring := (list N).

Definition js (s : string) : jstring :=
  (fun a => Ascii.N_of_ascii a) <$> String.list_ascii_of_string s.

Definition wf_string (s : jstring) : Prop := Forall (fun c => c < 65536) s.

Definition mem (c : N) (l : jstring) : bool := existsb (N.eqb c) l.

Definition between (lo hi c : N) : bool := (lo <=? c) && (c <=? hi).

Definition is_digit (c : N) : bool := between 48 57 c.
Definition is_alnum (c : N) : bool :=
  is_digit c || between 65 90 c || between 97 122 c.

(** Surrogate code units, and the code point of a surrogate pair. *)
Definition is_high (c : N) : bool := between 55296 56319 c.
Definition is_low (c : N) : bool := between 56320 57343 c.
Definition pair_cp (h l : N) : N := 65536 + (h - 55296) * 1024 + (l - 56320).

(** UTF16EncodeCodePoint. *)
Definition utf16_units (cp : N) : jstring :=
  if cp <? 65536 then [cp]
  else [55296 + (cp - 65536) / 1024; 56320 + (cp - 65536) mod 1024].

(** ** Hexadecimal digits *)

Definition hex_digit (upper : bool) (d : N) : N :=
  if d <? 10 then 48 + d else (if upper then 55 else 87) + d.

Definition hex_val (c : N) : option N :=
  if is_digit c then Some (c - 48)
  else if between 65 70 c then Some (c - 55)
  else if between 97 102 c then Some (c - 87)
  else None.

Definition hex2 (a b : N) : option N :=
  x ← hex_val a; y ← hex_val b; Some (x * 16 + y).

Definition hex4 (a b c d : N) : option N :=
  x ← hex2 a b; y ← hex2 c d; Some (x * 256 + y).

(** ** UTF-8 (RFC 3629) *)

Definition utf8_octets (cp : N) : list N :=
  if cp <? 128 then [cp]
  else if cp <? 2048 then [192 + cp / 64; 128 + cp mod 64]
  else if cp <? 65536 then
    [224 + cp / 4096; 128 + (cp / 64) mod 64; 128 + cp mod 64]
  else
    [240 + cp / 262144; 128 + (cp / 4096) mod 64;
     128 + (cp / 64) mod 64; 128 + cp mod 64].

Definition is_cont (b : N) : bool := between 128 191 b.

(** The code point of a two-, three- and four-octet sequence; [None] when
    the octets are not the valid UTF-8 encoding of a code point (a bad
    continuation octet, an overlong form, a surrogate, or above U+10FFFF). *)
Definition utf8_cp2 (b1 b2 : N) : option N :=
  let cp := (b1 - 192) * 64 + (b2 - 128) in
  if is_cont b2 && (128 <=? cp) then Some cp else None.

Definition utf8_cp3 (b1 b2 b3 : N) : option N :=
  let cp := (b1 - 224) * 4096 + (b2 - 128) * 64 + (b3 - 128) in
  if is_cont b2 && is_cont b3 && (2048 <=? cp) && negb (between 55296 57343 cp)
  then Some cp else None.

Definition utf8_cp4 (b1 b2 b3 b4 : N) : option N :=
  let cp := (b1 - 240) * 262144 + (b2 - 128) * 4096 + (b3 - 128) * 64 + (b4 - 128) in
  if is_cont b2 && is_cont b3 && is_cont b4 && between 65536 1114111 cp
  then Some cp else None.

(** ** encodeURIComponent (ECMA-262, Encode with the unreserved set)

    Unreserved code units are kept; every other code point is replaced by
    the escapes [%XX] of its UTF-8 octets. A lone surrogate raises URIError,
    here [None]. *)

Definition uri_unreserved (c : N) : bool := is_alnum c || mem c (js "-_.!~*'()").

Definition pct (b : N) : jstring := [37; hex_digit true (b / 16); hex_digit true (b mod 16)].

Definition pct_octets (bs : list N) : jstring := flat_map pct bs.

Fixpoint encodeURIComponent (s : jstring) : option jstring :=
  match s with
  | [] => Some []
  | c :: r =>
      if uri_unreserved c then cons c <$> encodeURIComponent r
      else if is_low c then None
      else if is_high c then
        match r with
        | d :: r' =>
            if is_low d
            then app (pct_octets (utf8_octets (pair_cp c d))) <$> encodeURIComponent r'
            else None
        | [] => None
        end
      else app (pct_octets (utf8_octets c)) <$> encodeURIComponent r
  end.

(** ** unescape (ECMA-262 B.2.1.2)

    [%uXXXX] is tried when at least five units follow the [%] and the next
    one is [u]; otherwise [%XX] when two units follow. An escape that does
    not parse leaves the [%] in place. *)
Fixpoint unescape (s : jstring) : jstring :=
  match s with
  | [] => []
  | c :: r =>
      if c =? 37 then
        match r with
        | a :: b :: r2 =>
            if a =? 117 then
              match r2 with
              | h2 :: h3 :: h4 :: r5 =>
                  match hex4 b h2 h3 h4 with
                  | Some n => n :: unescape r5
                  | None => c :: unescape r
                  end
              | _ =>
                  match hex2 a b with
                  | Some n => n :: unescape r2
                  | None => c :: unescape r
                  end
              end
            else
              match hex2 a b with
              | Some n => n :: unescape r2
              | None => c :: unescape r
              end
        | _ => c :: unescape r
        end
      else c :: unescape r
  end.

(** ** escape (ECMA-262 B.2.1.1) *)

Definition escape_unreserved (c : N) : bool := is_alnum c || mem c (js "@*_+-./").

Definition escape_unit (c : N) : jstring :=
  if escape_unreserved c then [c]
  else if c <? 256 then pct c
  else [37; 117; hex_digit true (c / 4096); hex_digit true ((c / 256) mod 16);
        hex_digit true ((c / 16) mod 16); hex_digit true (c mod 16)].

Definition escape (s : jstring) : jstring := flat_map escape_unit s.

(** ** decodeURIComponent (ECMA-262, Decode with the empty reserved set)

    The standard walks the string once; every failure is the same URIError
    ([None]), so the escapes are scanned first ([uri_scan]: a [%] must be
    followed by two hexadecimal digits) and the octets are then read as
    UTF-8 ([uri_units]: the octets of one code point must all be escapes). *)

Inductive uri_tok : Type :=
| Lit (c : N)
| Oct (b : N).

Fixpoint uri_scan (s : jstring) : option (list uri_tok) :=
  match s with
  | [] => Some []
  | c :: r =>
      if c =? 37 then
        match r with
        | a :: b :: r2 => o ← hex2 a b; cons (Oct o) <$> uri_scan r2
        | _ => None
        end
      else cons (Lit c) <$> uri_scan r
  end.

Fixpoint uri_units (ts : list uri_tok) : option jstring :=
  match ts with
  | [] => Some []
  | Lit c :: r => cons c <$> uri_units r
  | Oct b :: r =>
      if b <? 128 then cons b <$> uri_units r
      else if b <? 192 then None
      else if b <? 224 then
        match r with
        | Oct b2 :: r2 =>
            cp ← utf8_cp2 b b2; app (utf16_units cp) <$> uri_units r2
        | _ => None
        end
      else if b <? 240 then
        match r with
        | Oct b2 :: Oct b3 :: r3 =>
            cp ← utf8_cp3 b b2 b3; app (utf16_units cp) <$> uri_units r3
        | _ => None
        end
      else if b <? 248 then
        match r with
        | Oct b2 :: Oct b3 :: Oct b4 :: r4 =>
            cp ← utf8_cp4 b b2 b3 b4; app (utf16_units cp) <$> uri_units r4
        | _ => None
        end
      else None
  end.

Definition decodeURIComponent (s : jstring) : option jstring :=
  ts ← uri_scan s; uri_units ts.

(** ** btoa and atob (WHATWG HTML; forgiving-base64 of WHATWG Infra) *)

Definition b64_alphabet : jstring :=
  js "ABCDEFGHIJKLMNOPQRSTUVWXYZabcdefghijklmnopqrstuvwxyz0123456789+/".

Definition b64_char (i : N) : N := nth (N.to_nat i) b64_alphabet 0.

Definition b64_index (c : N) : option N :=
  if between 65 90 c then Some (c - 65)
  else if between 97 122 c then Some (c - 71)
  else if is_digit c then Some (c + 4)
  else if c =? 43 then Some 62
  else if c =? 47 then Some 63
  else None.

Fixpoint b64_encode (bs : list N) : jstring :=
  match bs with
  | [] => []
  | [a] => [b64_char (a / 4); b64_char ((a mod 4) * 16); 61; 61]
  | [a; b] =>
      [b64_char (a / 4); b64_char ((a mod 4) * 16 + b / 16);
       b64_char ((b mod 16) * 4); 61]
  | a :: b :: c :: r =>
      b64_char (a / 4) :: b64_char ((a mod 4) * 16 + b / 16) ::
      b64_char ((b mod 16) * 4 + c / 64) :: b64_char (c mod 64) :: b64_encode r
  end.

(** [btoa] raises InvalidCharacterError on a unit above U+00FF. *)
Definition btoa (s : jstring) : option jstring :=
  if forallb (fun c => c <? 256) s then Some (b64_encode s) else None.

Definition is_ascii_ws (c : N) : bool :=
  (c =? 9) || (c =? 10) || (c =? 12) || (c =? 13) || (c =? 32).

(** Step 2 of forgiving-base64 decode: when the length is a multiple of
    four, one or two trailing [=] are removed. *)
Definition strip_padding (d : jstring) : jstring :=
  if (length d mod 4 =? 0)%nat then
    match reverse d with
    | p :: q :: r =>
        if p =? 61 then (if q =? 61 then reverse r else reverse (q :: r)) else d
    | [p] => if p =? 61 then [] else d
    | [] => d
    end
  else d.

(** Steps 3 to 10: a remainder of one unit fails, a unit outside the
    alphabet fails, 24 bits give three octets, a tail of 12 (18) bits gives
    one (two) octets and its last four (two) bits are dropped. *)
Fixpoint b64_decode (d : jstring) : option (list N) :=
  match d with
  | [] => Some []
  | [_] => None
  | [c1; c2] =>
      i1 ← b64_index c1; i2 ← b64_index c2; Some [i1 * 4 + i2 / 16]
  | [c1; c2; c3] =>
      i1 ← b64_index c1; i2 ← b64_index c2; i3 ← b64_index c3;
      Some [i1 * 4 + i2 / 16; (i2 mod 16) * 16 + i3 / 4]
  | c1 :: c2 :: c3 :: c4 :: r =>
      i1 ← b64_index c1; i2 ← b64_index c2; i3 ← b64_index c3; i4 ← b64_index c4;
      app [i1 * 4 + i2 / 16; (i2 mod 16) * 16 + i3 / 4; (i3 mod 4) * 64 + i4]
        <$> b64_decode r
  end.

Definition atob (s : jstring) : option jstring :=
  b64_decode (strip_padding (filter (fun c => is_ascii_ws c = false) s)).

(** ** JSON values *)

(** The values [JSON.parse] can produce. An object is the list of its own
    properties in creation order (the keys of a tracker state are never
    array indices, which the language would order first). A number is kept
    as its source text: the double it denotes is not modelled, and no field
    of a tracker state is a number. *)
Unset Elimination Schemes.
Inductive value : Type :=
| VNull
| VBool (b : bool)
| VNum (text : jstring)
| VStr (s : jstring)
| VArr (items : list value)
| VObj (props : list (jstring * value)).
Set Elimination Schemes.

(** Property definition on an object ([CreateDataProperty], and the
    computed key of an object spread): an existing key keeps its place and
    takes the new value, a new key goes last. *)
Fixpoint obj_set {K A : Type} `{EqDecision K} (ps : list (K * A)) (k : K) (v : A)
  : list (K * A) :=
  match ps with
  | [] => [(k, v)]
  | (k', v') :: r => if decide (k' = k) then (k', v) :: r else (k', v') :: obj_set r k v
  end.

Fixpoint obj_get {K A : Type} `{EqDecision K} (ps : list (K * A)) (k : K) : option A :=
  match ps with
  | [] => None
  | (k', v') :: r => if decide (k' = k) then Some v' else obj_get r k
  end.

(** ** JSON.stringify (ECMA-262 SerializeJSONProperty, no indentation) *)

Definition unicode_escape (c : N) : jstring :=
  [92; 117; hex_digit false (c / 4096); hex_digit false ((c / 256) mod 16);
   hex_digit false ((c / 16) mod 16); hex_digit false (c mod 16)].

(** One code unit that is not a surrogate, inside QuoteJSONString. *)
Definition quote_unit (c : N) : jstring :=
  if c =? 8 then [92; 98]
  else if c =? 9 then [92; 116]
  else if c =? 10 then [92; 110]
  else if c =? 12 then [92; 102]
  else if c =? 13 then [92; 114]
  else if c =? 34 then [92; 34]
  else if c =? 92 then [92; 92]
  else if c <? 32 then unicode_escape c
  else [c].

(** QuoteJSONString walks the code points of the string: a surrogate pair
    is copied, a lone surrogate is written as a [\u] escape. *)
Fixpoint quote_body (s : jstring) : jstring :=
  match s with
  | [] => []
  | c :: r =>
      if is_high c then
        match r with
        | d :: r' =>
            if is_low d then c :: d :: quote_body r'
            else unicode_escape c ++ quote_body r
        | [] => unicode_escape c
        end
      else if is_low c then unicode_escape c ++ quote_body r
      else quote_unit c ++ quote_body r
  end.

Definition QuoteJSONString (s : jstring) : jstring := 34 :: quote_body s ++ [34].

Fixpoint join_commas (xs : list jstring) : jstring :=
  match xs with
  | [] => []
  | x :: r => match r with [] => x | _ => x ++ 44 :: join_commas r end
  end.

Fixpoint JSON_stringify (v : value) : jstring :=
  match v with
  | VNull => js "null"
  | VBool b => if b then js "true" else js "false"
  | VNum t => t
  | VStr s => QuoteJSONString s
  | VArr xs => 91 :: join_commas (map JSON_stringify xs) ++ [93]
  | VObj ps =>
      123 :: join_commas
               (map (fun p => QuoteJSONString (fst p) ++ 58 :: JSON_stringify (snd p)) ps)
          ++ [125]
  end.

(** ** JSON.parse (ECMA-262, the JSON grammar of ECMA-404) *)

Definition is_json_ws (c : N) : bool :=
  (c =? 32) || (c =? 9) || (c =? 10) || (c =? 13).

Fixpoint skip_ws (s : jstring) : jstring :=
  match s with
  | c :: r => if is_json_ws c then skip_ws r else s
  | [] => []
  end.

Definition simple_escape (e : N) : option N :=
  if e =? 34 then Some 34
  else if e =? 92 then Some 92
  else if e =? 47 then Some 47
  else if e =? 98 then Some 8
  else if e =? 102 then Some 12
  else if e =? 110 then Some 10
  else if e =? 114 then Some 13
  else if e =? 116 then Some 9
  else None.

(** The characters of a string literal after its opening quote, up to and
    including the closing quote; the result is the string and the rest. *)
Fixpoint parse_string (s : jstring) : option (jstring * jstring) :=
  match s with
  | [] => None
  | c :: r =>
      if c =? 34 then Some ([], r)
      else if c =? 92 then
        match r with
        | e :: r1 =>
            if e =? 117 then
              match r1 with
              | h1 :: h2 :: h3 :: h4 :: r5 =>
                  n ← hex4 h1 h2 h3 h4;
                  p ← parse_string r5;
                  Some (n :: p.1, p.2)
              | _ => None
              end
            else
              ch ← simple_escape e;
              p ← parse_string r1;
              Some (ch :: p.1, p.2)
        | [] => None
        end
      else if c <? 32 then None
      else p ← parse_string r; Some (c :: p.1, p.2)
  end.

Fixpoint digits (s : jstring) : jstring * jstring :=
  match s with
  | c :: r => if is_digit c then let p := digits r in (c :: p.1, p.2) else ([], s)
  | [] => ([], [])
  end.

Definition digits1 (s : jstring) : option (jstring * jstring) :=
  match digits s with
  | ([], _) => None
  | p => Some p
  end.

(** A number token: sign, integer part without a leading zero, fraction,
    exponent. The result is the text of the token and the rest. *)
Definition parse_number (s : jstring) : option (jstring * jstring) :=
  let sign := match s with c :: r => if c =? 45 then ([45], r) else ([], s) | [] => ([], s) end in
  int ← match sign.2 with
        | c :: r =>
            if c =? 48 then Some ([48], r)
            else if between 49 57 c then let p := digits r in Some (c :: p.1, p.2)
            else None
        | [] => None
        end;
  frac ← match int.2 with
         | c :: r =>
             if c =? 46 then p ← digits1 r; Some (46 :: p.1, p.2)
             else Some ([], int.2)
         | [] => Some ([], int.2)
         end;
  exp ← match frac.2 with
        | c :: r =>
            if (c =? 101) || (c =? 69) then
              let sg := match r with
                        | d :: r' => if (d =? 43) || (d =? 45) then ([d], r') else ([], r)
                        | [] => ([], r)
                        end in
              p ← digits1 sg.2; Some (c :: sg.1 ++ p.1, p.2)
            else Some ([], frac.2)
        | [] => Some ([], frac.2)
        end;
  Some (sign.1 ++ int.1 ++ frac.1 ++ exp.1, exp.2).

(** [expect lit s] is the rest of [s] after the prefix [lit]. *)
Fixpoint expect (lit s : jstring) : option jstring :=
  match lit with
  | [] => Some s
  | l :: lit' =>
      match s with
      | c :: r => if c =? l then expect lit' r else None
      | [] => None
      end
  end.

(** Recursive descent. Every call consumes a code unit before it recurses,
    so the fuel [S (length text)] given by [JSON_parse] is never what makes
    a parse fail. [parse_members] and [parse_elements] read the properties
    and the items that follow [{] and [[] up to the closing bracket. *)
Fixpoint parse_value (fuel : nat) (s : jstring) : option (value * jstring) :=
  match fuel with
  | O => None
  | S n =>
      match skip_ws s with
      | [] => None
      | c :: r =>
          if c =? 34 then p ← parse_string r; Some (VStr p.1, p.2)
          else if c =? 123 then
            match skip_ws r with
            | d :: r' => if d =? 125 then Some (VObj [], r') else parse_members n [] r
            | [] => None
            end
          else if c =? 91 then
            match skip_ws r with
            | d :: r' => if d =? 93 then Some (VArr [], r') else parse_elements n [] r
            | [] => None
            end
          else if c =? 116 then r' ← expect (js "rue") r; Some (VBool true, r')
          else if c =? 102 then r' ← expect (js "alse") r; Some (VBool false, r')
          else if c =? 110 then r' ← expect (js "ull") r; Some (VNull, r')
          else p ← parse_number (c :: r); Some (VNum p.1, p.2)
      end
  end
with parse_members (fuel : nat) (acc : list (jstring * value)) (s : jstring)
  : option (value * jstring) :=
  match fuel with
  | O => None
  | S n =>
      match skip_ws s with
      | q :: r =>
          if q =? 34 then
            k ← parse_string r;
            match skip_ws k.2 with
            | colon :: r2 =>
                if colon =? 58 then
                  v ← parse_value n r2;
                  let acc' := obj_set acc k.1 v.1 in
                  match skip_ws v.2 with
                  | d :: r4 =>
                      if d =? 44 then parse_members n acc' r4
                      else if d =? 125 then Some (VObj acc', r4)
                      else None
                  | [] => None
                  end
                else None
            | [] => None
            end
          else None
      | [] => None
      end
  end
with parse_elements (fuel : nat) (acc : list value) (s : jstring)
  : option (value * jstring) :=
  match fuel with
  | O => None
  | S n =>
      v ← parse_value n s;
      match skip_ws v.2 with
      | d :: r4 =>
          if d =? 44 then parse_elements n (acc ++ [v.1]) r4
          else if d =? 93 then Some (VArr (acc ++ [v.1]), r4)
          else None
      | [] => None
      end
  end.

(** [JSON.parse]: one value, then only white space; SyntaxError is [None]. *)
Definition JSON_parse (text : jstring) : option value :=
  p ← parse_value (S (length text)) text;
  match skip_ws p.2 with
  | [] => Some p.1
  | _ => None
  end.

(** ** The program: [App.tsx] *)

(** *** Steps, roles and the tracker state *)

Inductive StepId : Type :=
| started | validated | it_sent | it_ok | hob_sent | hob_ok | unisolate | done.

Inductive Role : Type :=
| operator | it | hob.

#[global] Instance StepId_eq_dec : EqDecision StepId.
Proof. solve_decision. Defined.

#[global] Instance Role_eq_dec : EqDecision Role.
Proof. solve_decision. Defined.

(** The string each identifier is in the source. *)
Definition step_id (x : StepId) : jstring :=
  match x with
  | started => js "started"
  | validated => js "validated"
  | it_sent => js "it_sent"
  | it_ok => js "it_ok"
  | hob_sent => js "hob_sent"
  | hob_ok => js "hob_ok"
  | unisolate => js "unisolate"
  | done => js "done"
  end.

Definition role_id (r : Role) : jstring :=
  match r with
  | operator => js "operator"
  | it => js "it"
  | hob => js "hob"
  end.

Record Step : Type := mkStep { id : StepId; label : jstring }.

Definition STEPS : list Step :=
  [ mkStep started (js "Unisolation started");
    mkStep validated (js "Inputs validated");
    mkStep it_sent (js "IT email sent");
    mkStep it_ok (js "IT approved");
    mkStep hob_sent (js "HOB email sent");
    mkStep hob_ok (js "HOB approved");
    mkStep unisolate (js "Unisolation requested");
    mkStep done (js "Completed") ].

Record LogEntry : Type := mkLogEntry { ts : jstring; who : Role; what : jstring }.

(** [machineName], [upn], [bu] and [readonly] are optional in the interface;
    [initial] and [reset], the only places that build a state from nothing,
    set all of them, so the record has them all. [completed] is an object:
    its properties in creation order. *)
Record TrackerState : Type := mkState {
  incidentId : jstring;
  machineId : jstring;
  machineName : jstring;
  upn : jstring;
  bu : jstring;
  active : StepId;
  completed : list (StepId * jstring);
  log : list LogEntry;
  readonly : bool
}.

Definition DEFAULT_STEP : StepId := started.

Definition toKey (i m : jstring) : jstring := js "unisov2:" ++ i ++ js ":" ++ m.

(** *** A state as the JavaScript object it is *)

Definition reify_entry (e : LogEntry) : value :=
  VObj [ (js "ts", VStr (ts e)); (js "who", VStr (role_id (who e)));
         (js "what", VStr (what e)) ].

Definition reify_completed (c : list (StepId * jstring)) : value :=
  VObj (map (fun p => (step_id (fst p), VStr (snd p))) c).

Definition reify (s : TrackerState) : value :=
  VObj [ (js "incidentId", VStr (incidentId s));
         (js "machineId", VStr (machineId s));
         (js "machineName", VStr (machineName s));
         (js "upn", VStr (upn s));
         (js "bu", VStr (bu s));
         (js "active", VStr (step_id (active s)));
         (js "completed", reify_completed (completed s));
         (js "log", VArr (map reify_entry (log s)));
         (js "readonly", VBool (readonly s)) ].

(** *** bootstrap *)

(** The parts of [window.location] that [bootstrap] reads: [hash] is
    [url.hash], [searchParams] the decoded query parameters in order. *)
Record Location : Type := mkLocation {
  hash : jstring;
  searchParams : list (jstring * jstring)
}.

(** [url.searchParams.get(name)] or the empty string: the first value of the parameter,
    the empty string when there is none. *)
Definition param (url : Location) (name : jstring) : jstring :=
  default [] (obj_get (searchParams url) name).

(** [url.hash.replace]: a leading [#state=] is removed. *)
Definition strip_state (h : jstring) : jstring :=
  default h (expect (js "#state=") h).

Definition nonempty (s : jstring) : bool :=
  match s with [] => false | _ => true end.

(** [JSON.parse(decodeURIComponent(escape(atob(hash))))]; [None] when any
    of the calls throws. *)
Definition decode (token : jstring) : option value :=
  b ← atob token; t ← decodeURIComponent (escape b); JSON_parse t.

(** The object literal of the last [return] of [bootstrap]. *)
Definition url_seed (incidentId machineId upn bu machineName : jstring) : value :=
  VObj [ (js "incidentId", VStr incidentId); (js "machineId", VStr machineId);
         (js "upn", VStr upn); (js "bu", VStr bu);
         (js "machineName", VStr machineName) ].

Definition bootstrap (url : Location) (localStorage : gmap jstring jstring) : value :=
  let hash := strip_state (hash url) in
  match (if nonempty hash then decode hash else None) with
  | Some seed => seed
  | None =>
      let incidentId := param url (js "incidentId") in
      let machineId := param url (js "machineId") in
      let upn := param url (js "upn") in
      let bu := param url (js "bu") in
      let machineName := param url (js "machineName") in
      let cached := localStorage !! toKey incidentId machineId in
      match (match cached with
             | Some c => if nonempty c then JSON_parse c else None
             | None => None
             end) with
      | Some seed => seed
      | None => url_seed incidentId machineId upn bu machineName
      end
  end.

(** *** initial *)

(** [seed.name]: [None] is [undefined]. Reading a property of [null]
    throws, which [initial] handles before it reads. *)
Definition get_prop (seed : value) (name : jstring) : option value :=
  match seed with
  | VObj ps => obj_get ps name
  | _ => None
  end.

Fixpoint all_zero (t : jstring) : bool :=
  match t with
  | [] => true
  | c :: r =>
      if (c =? 101) || (c =? 69) then true
      else if between 49 57 c then false
      else all_zero r
  end.

(** ToBoolean. A number is false when its text denotes zero (underflow of
    the double is not modelled). *)
Definition truthy (o : option value) : bool :=
  match o with
  | None => false
  | Some VNull => false
  | Some (VBool b) => b
  | Some (VNum t) => negb (all_zero t)
  | Some (VStr s) => nonempty s
  | Some (VArr _) => true
  | Some (VObj _) => true
  end.

(** [seed.name] or the empty string, at type [string]. A truthy value that is not a
    string is outside [Partial<TrackerState>]: no tracker state results,
    which is [None]. *)
Definition string_field (seed : value) (name : jstring) : option jstring :=
  match get_prop seed name with
  | Some (VStr s) => Some s
  | o => if truthy o then None else Some []
  end.

(** [initial], with the seed [bootstrap()] returned and the reading [now]
    of the clock. [None]: the seed is [null] (TypeError), or a context
    field is not a string. *)
Definition initial (seed : value) (now : jstring) : option TrackerState :=
  match seed with
  | VNull => None
  | _ =>
      incidentId ← string_field seed (js "incidentId");
      machineId ← string_field seed (js "machineId");
      machineName ← string_field seed (js "machineName");
      upn ← string_field seed (js "upn");
      bu ← string_field seed (js "bu");
      Some {| incidentId := incidentId;
              machineId := machineId;
              machineName := machineName;
              upn := upn;
              bu := bu;
              active := DEFAULT_STEP;
              completed := [(started, now)];
              log := [mkLogEntry now operator (js "Tracker created")];
              readonly := truthy (get_prop seed (js "readonly")) |}
  end.

(** *** The handlers of [App]

    A handler is given the current [state] (and [role]) of the render it
    was created in, and the readings of the clock and of [confirm] it makes.
    Its result is [Some s'] when it calls [setState], with [s'] what the
    updater returns, and [None] when it returns without calling it. *)

(** [a || b] on strings. *)
Definition or_else (a b : jstring) : jstring := if nonempty a then a else b.

Definition setActive (state : TrackerState) (id : StepId) (who : Role)
    (note : option jstring) (ts : jstring) : option TrackerState :=
  if readonly state then None
  else
    Some {| incidentId := incidentId state;
            machineId := machineId state;
            machineName := machineName state;
            upn := upn state;
            bu := bu state;
            active := id;
            completed :=
              obj_set (completed state) id
                (or_else (default [] (obj_get (completed state) id)) ts);
            log := log state ++
              [mkLogEntry ts who
                 (or_else (default [] note) (js "Moved to: " ++ step_id id))];
            readonly := readonly state |}.

(** The token of [share]:
    [btoa(unescape(encodeURIComponent(JSON.stringify(snap))))]. *)
Definition snap (state : TrackerState) : TrackerState :=
  {| incidentId := incidentId state;
     machineId := machineId state;
     machineName := machineName state;
     upn := upn state;
     bu := bu state;
     active := active state;
     completed := completed state;
     log := log state;
     readonly := true |}.

Definition encode (state : TrackerState) : option jstring :=
  p ← encodeURIComponent (JSON_stringify (reify (snap state)));
  btoa (unescape p).

(** [share]: the URL written to the clipboard; [None] when a call throws. *)
Definition share (state : TrackerState) (origin pathname : jstring) : option jstring :=
  b64 ← encode state;
  i ← encodeURIComponent (incidentId state);
  m ← encodeURIComponent (machineId state);
  Some (origin ++ pathname ++ js "?incidentId=" ++ i ++ js "&machineId=" ++ m
          ++ js "#state=" ++ b64).

Definition reset (state : TrackerState) (confirmed : bool) (now : jstring)
  : option TrackerState :=
  if negb confirmed then None
  else
    Some {| incidentId := incidentId state;
            machineId := machineId state;
            machineName := machineName state;
            upn := upn state;
            bu := bu state;
            active := DEFAULT_STEP;
            completed := [(started, now)];
            log := [mkLogEntry now operator (js "Tracker reset")];
            readonly := false |}.

(** [order.indexOf(id)]: -1 when absent. *)
Fixpoint indexOf (x : StepId) (l : list StepId) : Z :=
  match l with
  | [] => (-1)%Z
  | y :: r =>
      if decide (y = x) then 0%Z
      else let i := indexOf x r in if (i <? 0)%Z then (-1)%Z else (i + 1)%Z
  end.

(** [order[i]]: [undefined] outside the array. *)
Definition at_index (l : list StepId) (i : Z) : option StepId :=
  if (i <? 0)%Z then None else l !! Z.to_nat i.

(** [STEPS.map(s => s.id)]. *)
Definition order : list StepId := map id STEPS.

Definition nextFor (state : TrackerState) (r : Role) : option StepId :=
  let id := active state in
  let i := indexOf id order in
  match at_index order (i + 1) with
  | None => None
  | Some next =>
      if decide (r = operator) then Some next
      else if bool_decide (r = it)
              && (bool_decide (id = it_sent) || bool_decide (id = it_ok)
                  || bool_decide (id = validated)) then Some it_ok
      else if bool_decide (r = hob)
              && (bool_decide (id = hob_sent) || bool_decide (id = hob_ok)
                  || bool_decide (id = it_ok)) then Some hob_ok
      else None
  end.

Definition denial : jstring := js "No permitted next step for this role.".

(** [STEPS.find(s => s.id === n)?.label || n]. *)
Definition label_of (n : StepId) : jstring :=
  or_else (default [] (label <$> find (fun s => bool_decide (id s = n)) STEPS))
          (step_id n).

(** [advance]: the state update, if any, and the message of [alert], if
    any. *)
Definition advance (state : TrackerState) (role : Role) (ts : jstring)
  : option TrackerState * option jstring :=
  match nextFor state role with
  | None => (None, Some denial)
  | Some n =>
      (setActive state n role
         (Some (role_id role ++ js " advanced " ++ [8594] ++ js " " ++ label_of n)) ts,
       None)
  end.

(** The five inputs of the Context panel: [setState(s => ({...s, f: v}))]. *)
Inductive Field : Type :=
| FincidentId | FmachineId | FmachineName | Fupn | Fbu.

Definition setField (state : TrackerState) (f : Field) (v : jstring) : TrackerState :=
  {| incidentId := match f with FincidentId => v | _ => incidentId state end;
     machineId := match f with FmachineId => v | _ => machineId state end;
     machineName := match f with FmachineName => v | _ => machineName state end;
     upn := match f with Fupn => v | _ => upn state end;
     bu := match f with Fbu => v | _ => bu state end;
     active := active state;
     completed := completed state;
     log := log state;
     readonly := readonly state |}.

(** *** The persistence effect *)

(** The body of [useEffect(..., [state])]. *)
Definition persist (state : TrackerState) (localStorage : gmap jstring jstring)
  : gmap jstring jstring :=
  if readonly state then localStorage
  else if negb (nonempty (incidentId state)) || negb (nonempty (machineId state))
  then localStorage
  else <[toKey (incidentId state) (machineId state) := JSON_stringify (reify state)]>
         localStorage.

(** *** The component as a transition system

    What an event leaves behind: the state and role of [App], the local
    store, the messages shown by [alert], and the clipboard. The effect
    runs after the first render and after every render whose [state] is a
    new object, that is after every call of [setState]. *)
Record World : Type := mkWorld {
  state : TrackerState;
  role : Role;
  localStorage : gmap jstring jstring;
  alerts : list jstring;
  clipboard : option jstring
}.

Inductive Event : Type :=
| Advance (ts : jstring)
| SetField (f : Field) (v : jstring)
| Reset (confirmed : bool) (now : jstring)
| SetRole (r : Role)
| Share (origin pathname : jstring).

(** [setState] followed by the effect of the next render. *)
Definition commit (w : World) (update : option TrackerState) : World :=
  match update with
  | None => w
  | Some s' =>
      {| state := s'; role := role w;
         localStorage := persist s' (localStorage w);
         alerts := alerts w; clipboard := clipboard w |}
  end.

Definition alert (w : World) (msg : option jstring) : World :=
  match msg with
  | None => w
  | Some m =>
      {| state := state w; role := role w; localStorage := localStorage w;
         alerts := alerts w ++ [m]; clipboard := clipboard w |}
  end.

(** The state an event hands to [setState], when its handler calls it. *)
Definition update_of (w : World) (e : Event) : option TrackerState :=
  match e with
  | Advance ts => (advance (state w) (role w) ts).1
  | SetField f v => Some (setField (state w) f v)
  | Reset confirmed now => reset (state w) confirmed now
  | SetRole _ => None
  | Share _ _ => None
  end.

(** What else the handler does: [alert], [setRole], the clipboard. *)
Definition effects_of (w0 : World) (e : Event) (w : World) : World :=
  match e with
  | Advance ts => alert w (advance (state w0) (role w0) ts).2
  | SetField _ _ => w
  | Reset _ _ => w
  | SetRole r =>
      {| state := state w; role := r; localStorage := localStorage w;
         alerts := alerts w; clipboard := clipboard w |}
  | Share origin pathname =>
      match share (state w0) origin pathname with
      | Some url =>
          {| state := state w; role := role w; localStorage := localStorage w;
             alerts := alerts w ++ [js "Read-only link copied to clipboard."];
             clipboard := Some url |}
      | None => w
      end
  end.

Definition step (w : World) (e : Event) : World :=
  effects_of w e (commit w (update_of w e)).

Definition run (w : World) (es : list Event) : World := foldl step w es.

(** The first render: [useState(initial())], role [operator], and the
    first run of the effect. *)
Definition mount (url : Location) (store : gmap jstring jstring) (now : jstring)
  : option World :=
  s ← initial (bootstrap url store) now;
  Some {| state := s; role := operator; localStorage := persist s store;
          alerts := []; clipboard := None |}.

(** ** Definitions used to state the properties *)

(** The linear successor in the catalog
    [started, validated, it_sent, it_ok, hob_sent, hob_ok, unisolate, done],
    as the specification lists it. *)
Definition spec_successor (a : StepId) : option StepId :=
  match a with
  | started => Some validated
  | validated => Some it_sent
  | it_sent => Some it_ok
  | it_ok => Some hob_sent
  | hob_sent => Some hob_ok
  | hob_ok => Some unisolate
  | unisolate => Some done
  | done => None
  end.

(** The permitted next step of a role, as the specification words it. *)
Definition spec_gate (r : Role) (a : StepId) : option StepId :=
  match r with
  | operator => spec_successor a
  | it =>
      match a with
      | validated | it_sent | it_ok => Some it_ok
      | _ => None
      end
  | hob =>
      match a with
      | it_ok | hob_sent | hob_ok => Some hob_ok
      | _ => None
      end
  end.

(** The condition under which the specification lets a state be written
    to the local store. *)
Definition persistable (s : TrackerState) : bool :=
  negb (readonly s) && nonempty (incidentId s) && nonempty (machineId s).

(** The persistence key of a state. *)
Definition key_of (s : TrackerState) : jstring := toKey (incidentId s) (machineId s).

(** Every recorded timestamp is a non-empty string, as every reading of
    [new Date().toISOString()] is. *)
Definition stamped (s : TrackerState) : bool :=
  forallb (fun p => nonempty (snd p)) (completed s).

(** The active step has a timestamp. *)
Definition active_stamped (s : TrackerState) : bool :=
  bool_decide (is_Some (obj_get (completed s) (active s))).

(** An event other than a reset, whose reading of the clock is a
    timestamp. *)
Definition ticking (e : Event) : bool :=
  match e with
  | Advance ts => nonempty ts
  | Reset _ _ => false
  | _ => true
  end.

(** The value of a context field. *)
Definition field (s : TrackerState) (f : Field) : jstring :=
  match f with
  | FincidentId => incidentId s
  | FmachineId => machineId s
  | FmachineName => machineName s
  | Fupn => upn s
  | Fbu => bu s
  end.

Definition identifying (f : Field) : bool :=
  match f with
  | FincidentId | FmachineId => true
  | _ => false
  end.

(** The description [advance] logs. *)
Definition advance_note (r : Role) (n : StepId) : jstring :=
  role_id r ++ js " advanced " ++ [8594] ++ js " " ++ label_of n.

(** Sample data: an incident half way through the flow, as a colleague
    would share it; a read-only view of it; the store that holds it. *)
Definition t0 : jstring := js "2025-01-01T09:00:00.000Z".
Definition t1 : jstring := js "2025-01-01T09:05:00.000Z".
Definition t2 : jstring := js "2025-01-01T09:10:00.000Z".
Definition t3 : jstring := js "2025-01-01T09:15:00.000Z".

Definition sample_state : TrackerState :=
  {| incidentId := js "INC-42";
     machineId := js "PC-7";
     machineName := js "lab" ++ [233; 26085; 55357; 56832];
     upn := js "ana@example.org";
     bu := js "R&D";
     active := it_sent;
     completed := [(started, t0); (validated, t1); (it_sent, t2)];
     log := [ mkLogEntry t0 operator (js "Tracker created");
              mkLogEntry t1 operator (advance_note operator validated);
              mkLogEntry t2 operator (advance_note operator it_sent) ];
     readonly := false |}.

Definition sample_world : World :=
  {| state := sample_state; role := operator;
     localStorage := {[ key_of sample_state := JSON_stringify (reify sample_state) ]};
     alerts := []; clipboard := None |}.

Definition readonly_world : World :=
  {| state := snap sample_state; role := it;
     localStorage := ∅; alerts := []; clipboard := None |}.

(** The world of the first render of a page opened from the link [share]
    makes for [sample_state], with an empty store, at the reading [t3] of
    the clock: a read-only session, as the component holds it. *)
Definition shared_world : World :=
  {| state := {| incidentId := incidentId sample_state;
                 machineId := machineId sample_state;
                 machineName := machineName sample_state;
                 upn := upn sample_state;
                 bu := bu sample_state;
                 active := started;
                 completed := [(started, t3)];
                 log := [mkLogEntry t3 operator (js "Tracker created")];
                 readonly := true |};
     role := operator; localStorage := ∅; alerts := []; clipboard := None |}.

(** The unpadded base64 text of a sequence of octets: what [b64_encode]
    writes before its padding. *)
Fixpoint b64_body (bs : list N) : jstring :=
  match bs with
  | [] => []
  | [a] => [b64_char (a / 4); b64_char ((a mod 4) * 16)]
  | [a; b] =>
      [b64_char (a / 4); b64_char ((a mod 4) * 16 + b / 16);
       b64_char ((b mod 16) * 4)]
  | a :: b :: c :: r =>
      b64_char (a / 4) :: b64_char ((a mod 4) * 16 + b / 16) ::
      b64_char ((b mod 16) * 4 + c / 64) :: b64_char (c mod 64) :: b64_body r
  end.

Definition b64_pad (bs : list N) : jstring :=
  match (length bs mod 3)%nat with
  | 1%nat => [61; 61]
  | 2%nat => [61]
  | _ => []
  end.

(** Octets. *)
Definition octets (bs : list N) : Prop := Forall (fun b => b < 256) bs.

(** A string without lone surrogates. *)
Fixpoint well_formed (s : jstring) : bool :=
  match s with
  | [] => true
  | c :: r =>
      if is_high c then
        match r with
        | d :: r' => is_low d && well_formed r'
        | [] => false
        end
      else if is_low c then false
      else well_formed r
  end.

(** A text that can be put before any other without pairing or splitting
    surrogates, and whose units are 16-bit. *)
Definition sealed (t : jstring) : Prop :=
  wf_string t /\ forall rest, well_formed (t ++ rest) = well_formed rest.

(** The UTF-8 octets of a string without lone surrogates. *)
Fixpoint utf8 (s : jstring) : list N :=
  match s with
  | [] => []
  | c :: r =>
      if is_high c then
        match r with
        | d :: r' => utf8_octets (pair_cp c d) ++ utf8 r'
        | [] => []
        end
      else utf8_octets c ++ utf8 r
  end.

(** The token [uri_scan] reads for an octet that [escape] wrote. *)
Definition escaped_tok (b : N) : uri_tok :=
  if escape_unreserved b then Lit b else Oct b.

Definition wf_stringb (s : jstring) : bool := forallb (fun c => c <? 65536) s.

(** The values [JSON.stringify] and [JSON.parse] carry back and forth
    unchanged: no numbers, 16-bit code units, no key twice in an object. *)
Fixpoint plain (v : value) : Prop :=
  match v with
  | VNull => True
  | VBool _ => True
  | VNum _ => False
  | VStr s => wf_string s
  | VArr xs => (fix all (xs : list value) : Prop :=
                  match xs with
                  | [] => True
                  | x :: r => plain x /\ all r
                  end) xs
  | VObj ps => NoDup (map fst ps)
               /\ (fix all (ps : list (jstring * value)) : Prop :=
                     match ps with
                     | [] => True
                     | p :: r => (wf_string (fst p) /\ plain (snd p)) /\ all r
                     end) ps
  end.

(** The text of the properties of an object between the braces. *)
Definition members_text (ps : list (jstring * value)) : jstring :=
  join_commas (map (fun p => QuoteJSONString (fst p) ++ 58 :: JSON_stringify (snd p)) ps).

Definition elements_text (xs : list value) : jstring :=
  join_commas (map JSON_stringify xs).

(** What reading a value back means: with fuel for its text, whatever
    follows. *)
Definition reads_back (v : value) : Prop :=
  forall fuel rest,
    (length (JSON_stringify v) <= fuel)%nat ->
    parse_value fuel (JSON_stringify v ++ rest) = Some (v, rest).

(** A state whose strings are JavaScript strings and whose [completed] is an
    object (no step twice). *)
Definition valid_state (s : TrackerState) : bool :=
  wf_stringb (incidentId s) && wf_stringb (machineId s) && wf_stringb (machineName s)
  && wf_stringb (upn s) && wf_stringb (bu s)
  && bool_decide (NoDup (map fst (completed s)))
  && forallb (fun p => wf_stringb (snd p)) (completed s)
  && forallb (fun e => wf_stringb (ts e) && wf_stringb (what e)) (log s).

(** *** What the stepper renders *)

(** [STEPS.findIndex(s => s.id === state.active)]: -1 when no step matches. *)
Fixpoint findIndex {A : Type} (p : A -> bool) (l : list A) : Z :=
  match l with
  | [] => (-1)%Z
  | x :: r =>
      if p x then 0%Z
      else let i := findIndex p r in if (i <? 0)%Z then (-1)%Z else (i + 1)%Z
  end.

Definition activeIdx (state : TrackerState) : Z :=
  findIndex (fun s => bool_decide (id s = active state)) STEPS.

(** The three values of [status] in the stepper. *)
Inductive Status : Type :=
| status_done | status_current | status_pending.

#[global] Instance Status_eq_dec : EqDecision Status.
Proof. solve_decision. Defined.

(** [i < activeIdx ? "done" : i === activeIdx ? "current" : "pending"]. *)
Definition status (state : TrackerState) (i : Z) : Status :=
  if (i <? activeIdx state)%Z then status_done
  else if (i =? activeIdx state)%Z then status_current
  else status_pending.

(** [STEPS.map((s, idx) => ... status ...)]: the status of each step, in the
    order of the catalog. *)
Definition statuses (state : TrackerState) : list Status :=
  imap (fun idx _ => status state (Z.of_nat idx)) STEPS.

(** ** Further definitions used to state the properties *)

(** An event other than a confirmed reset. *)
Definition keeps_progress (e : Event) : bool :=
  match e with
  | Reset confirmed _ => negb confirmed
  | _ => true
  end.

(** An event that edits the context or the role, or shares. *)
Definition context_only (e : Event) : bool :=
  match e with
  | SetField _ _ | SetRole _ | Share _ _ => true
  | _ => false
  end.

Definition is_advance (e : Event) : bool :=
  match e with
  | Advance _ => true
  | _ => false
  end.

(** The position of a step in the catalog. *)
Definition position (x : StepId) : Z := indexOf x order.

(** The state [initial] and [reset] build around given context fields. *)
Definition fresh (s : TrackerState) (now : jstring) (what : jstring) (ro : bool)
  : TrackerState :=
  {| incidentId := incidentId s;
     machineId := machineId s;
     machineName := machineName s;
     upn := upn s;
     bu := bu s;
     active := started;
     completed := [(started, now)];
     log := [mkLogEntry now operator what];
     readonly := ro |}.

(** The state after one [advance] by role [r]. *)
Definition advance_state (r : Role) (s : TrackerState) (ts : jstring) : TrackerState :=
  default s (advance s r ts).1.

(** A unit of the base64 alphabet, or the padding. *)
Definition b64_unit (c : N) : bool :=
  match b64_index c with Some _ => true | None => c =? 61 end.

(** A unit [encodeURIComponent] can write. *)
Definition uri_safe (c : N) : bool := uri_unreserved c || (c =? 37).

(** An event that does not change the role. *)
Definition keeps_role (e : Event) : bool :=
  match e with
  | SetRole _ => false
  | _ => true
  end.

(** A parser call that succeeds consumes input, and succeeds with the same
    result on any fuel that is at least the number of units it consumed. *)
Definition adequate_value (m : nat) : Prop :=
  forall s v rest,
    parse_value m s = Some (v, rest) ->
    (length rest < length s)%nat
    /\ forall n, (length s - length rest <= n)%nat -> parse_value n s = Some (v, rest).

Definition adequate_members (m : nat) : Prop :=
  forall acc s v rest,
    parse_members m acc s = Some (v, rest) ->
    (length rest < length s)%nat
    /\ forall n, (length s - length rest <= n)%nat ->
                 parse_members n acc s = Some (v, rest).

Definition adequate_elements (m : nat) : Prop :=
  forall acc s v rest,
    parse_elements m acc s = Some (v, rest) ->
    (length rest < length s)%nat
    /\ forall n, (length s - length rest <= n)%nat ->
                 parse_elements n acc s = Some (v, rest).

(** * Properties *)

(** The handlers and the codec are unfolded by name only. *)
#[global] Arguments js : simpl never.
#[global] Arguments JSON_stringify : simpl never.
#[global] Arguments JSON_parse : simpl never.
#[global] Arguments decode : simpl never.
#[global] Arguments encode : simpl never.
#[global] Arguments share : simpl never.
#[global] Arguments nextFor : simpl never.
#[global] Arguments label_of : simpl never.
#[global] Arguments advance : simpl never.
#[global] Arguments setActive : simpl never.
#[global] Arguments persist : simpl never.
#[global] Arguments bootstrap : simpl never.
#[global] Arguments toKey : simpl never.

(** ** Objects as property lists *)

Section obj.
Context {K A : Type} `{EqDecision K}.
Implicit Types (ps : list (K * A)) (k : K) (v : A).

Lemma obj_get_set ps k k' v :
  obj_get (obj_set ps k v) k' = if decide (k = k') then Some v else obj_get ps k'.
Proof.
  induction ps as [|[k0 v0] ps IH]; simpl.
  - destruct (decide (k = k')); reflexivity.
  - destruct (decide (k0 = k)) as [->|Hne]; simpl.
    + destruct (decide (k = k')); reflexivity.
    + destruct (decide (k0 = k')) as [->|Hne'].
      * destruct (decide (k = k')); [congruence | reflexivity].
      * apply IH.
Qed.

Lemma obj_get_set_eq ps k v : obj_get (obj_set ps k v) k = Some v.
Proof. rewrite obj_get_set. destruct (decide (k = k)); congruence. Qed.

Lemma obj_get_set_ne ps k k' v :
  k <> k' -> obj_get (obj_set ps k v) k' = obj_get ps k'.
Proof. intros Hne. rewrite obj_get_set. destruct (decide (k = k')); congruence. Qed.

Lemma obj_set_fresh ps k v :
  obj_get ps k = None -> obj_set ps k v = ps ++ [(k, v)].
Proof.
  induction ps as [|[k0 v0] ps IH]; simpl; [reflexivity|].
  destruct (decide (k0 = k)); [discriminate|].
  intros Hn. rewrite IH by assumption. reflexivity.
Qed.

Lemma obj_get_Forall (P : A -> Prop) ps k v :
  Forall (fun p => P (snd p)) ps -> obj_get ps k = Some v -> P v.
Proof.
  induction 1 as [|[k0 v0] ps Hp _ IH]; simpl; [discriminate|].
  destruct (decide (k0 = k)); [intros [= <-]; exact Hp | exact IH].
Qed.

Lemma Forall_obj_set (P : A -> Prop) ps k v :
  Forall (fun p => P (snd p)) ps -> P v -> Forall (fun p => P (snd p)) (obj_set ps k v).
Proof.
  induction 1 as [|[k0 v0] ps Hp Hps IH]; simpl; intros Hv.
  - constructor; [exact Hv | constructor].
  - destruct (decide (k0 = k)); constructor; auto.
Qed.
End obj.

(** ** The gating table *)

Lemma nextFor_spec_gate (s : TrackerState) (r : Role) :
  nextFor s r = spec_gate r (active s).
Proof.
  unfold nextFor. destruct (active s), r; reflexivity.
Qed.

(** C3. The permitted next step that [nextFor] computes is the one of the
    gating table: for [operator] the linear successor of the active step in
    the catalog, for [it] the step [it_ok] exactly from [validated],
    [it_sent] and [it_ok], for [hob] the step [hob_ok] exactly from [it_ok],
    [hob_sent] and [hob_ok]; and whatever the rest of the state, no role has
    a permitted step from [done]. *)
Theorem nextFor_gating_table (s : TrackerState) (r : Role) :
  nextFor s r = spec_gate r (active s)
  /\ nextFor (mkState (incidentId s) (machineId s) (machineName s) (upn s) (bu s)
                done (completed s) (log s) (readonly s)) r = None.
Proof.
  split.
  - apply nextFor_spec_gate.
  - rewrite nextFor_spec_gate. destruct r; reflexivity.
Qed.

(** ** Handlers *)

Lemma nonempty_true (s : jstring) : nonempty s = true <-> s <> [].
Proof. destruct s; simpl; split; congruence. Qed.

Lemma or_else_nonempty (a b : jstring) : a <> [] -> or_else a b = a.
Proof. destruct a; [congruence | reflexivity]. Qed.

Lemma setActive_readonly s n r note ts :
  readonly s = true -> setActive s n r note ts = None.
Proof. unfold setActive. intros ->. reflexivity. Qed.

Lemma advance_readonly s r ts : readonly s = true -> (advance s r ts).1 = None.
Proof.
  intros Hro. unfold advance. destruct (nextFor s r); cbn [fst]; [|reflexivity].
  apply setActive_readonly, Hro.
Qed.

Lemma commit_None w : commit w None = w.
Proof. reflexivity. Qed.

Lemma state_alert w m : state (alert w m) = state w.
Proof. destruct m; reflexivity. Qed.

Lemma localStorage_alert w m : localStorage (alert w m) = localStorage w.
Proof. destruct m; reflexivity. Qed.

Lemma state_effects_of w0 e w : state (effects_of w0 e w) = state w.
Proof.
  destruct e; unfold effects_of; [apply state_alert | reflexivity .. | ].
  case (share _ _ _); reflexivity.
Qed.

Lemma localStorage_effects_of w0 e w :
  localStorage (effects_of w0 e w) = localStorage w.
Proof.
  destruct e; unfold effects_of; [apply localStorage_alert | reflexivity .. | ].
  case (share _ _ _); reflexivity.
Qed.

Lemma state_step w e : state (step w e) = default (state w) (update_of w e).
Proof.
  unfold step. rewrite state_effects_of. destruct (update_of w e); reflexivity.
Qed.

Lemma localStorage_step w e :
  localStorage (step w e) =
    match update_of w e with
    | Some s' => persist s' (localStorage w)
    | None => localStorage w
    end.
Proof.
  unfold step. rewrite localStorage_effects_of. destruct (update_of w e); reflexivity.
Qed.

(** C2, as amended. In a read-only state [advance] changes nothing, for
    every role and whether or not the role has a permitted step: the state
    and the local store after the event are those before it. [reset] is not
    gated on [readonly]: declined it changes nothing; confirmed it
    re-initialises the state, that is [active] becomes [started],
    [completed] holds [started] alone at [now], [log] is the single entry
    [Tracker reset] by [operator] at [now], the five context fields are
    kept, and [readonly] becomes [false]. *)
Theorem readonly_advance_noop (w : World) (ts now : jstring) :
  readonly (state w) = true ->
  state (step w (Advance ts)) = state w
  /\ localStorage (step w (Advance ts)) = localStorage w
  /\ step w (Reset false now) = w
  /\ state (step w (Reset true now))
     = {| incidentId := incidentId (state w);
          machineId := machineId (state w);
          machineName := machineName (state w);
          upn := upn (state w);
          bu := bu (state w);
          active := started;
          completed := [(started, now)];
          log := [mkLogEntry now operator (js "Tracker reset")];
          readonly := false |}.
Proof.
  intros Hro. split; [|split; [|split]].
  - rewrite state_step. unfold update_of. rewrite advance_readonly by assumption. reflexivity.
  - rewrite localStorage_step. unfold update_of. rewrite advance_readonly by assumption. reflexivity.
  - reflexivity.
  - rewrite state_step. reflexivity.
Qed.

Lemma readonly_advance_noop_witness :
  readonly (state shared_world) = true
  /\ state (step shared_world (Advance t0)) = state shared_world
  /\ active (state (step shared_world (Reset true t0))) = started.
Proof.
  split; [reflexivity|].
  destruct (readonly_advance_noop shared_world t0 t0 eq_refl) as (Ha & _ & _ & Hr).
  split; [exact Ha|]. rewrite Hr. reflexivity.
Defined.

(** C2 as the specification states it fails. [shared_world] is the
    read-only session the component holds after it is opened from the link
    of [sample_state]; there a confirmed [reset] and an edit of a context
    field both change the state. *)
Lemma readonly_reset_setField_change :
  (exists token,
     encode sample_state = Some token
     /\ mount (mkLocation (js "#state=" ++ token) []) ∅ t3 = Some shared_world)
  /\ readonly (state shared_world) = true
  /\ state (step shared_world (Reset true t0)) <> state shared_world
  /\ state (step shared_world (SetField Fupn (js "bob@example.org")))
     <> state shared_world.
Proof.
  split.
  { eexists. split; [vm_compute; reflexivity|]. vm_compute. reflexivity. }
  split; [reflexivity|]. split; intros H; discriminate H.
Qed.

Lemma advance_note_nonempty r n : nonempty (advance_note r n) = true.
Proof. destruct r; reflexivity. Qed.

Lemma advance_permitted s r ts n :
  readonly s = false -> spec_gate r (active s) = Some n ->
  advance s r ts =
    (Some {| incidentId := incidentId s; machineId := machineId s;
             machineName := machineName s; upn := upn s; bu := bu s;
             active := n;
             completed := obj_set (completed s) n
                            (or_else (default [] (obj_get (completed s) n)) ts);
             log := log s ++ [mkLogEntry ts r (advance_note r n)];
             readonly := false |}, None).
Proof.
  intros Hro Hg. unfold advance. rewrite nextFor_spec_gate, Hg.
  unfold setActive. rewrite Hro.
  assert (Hn : or_else (default [] (Some (role_id r ++ js " advanced " ++ [8594]
                                            ++ js " " ++ label_of n)))
                 (js "Moved to: " ++ step_id n) = advance_note r n).
  { cbn [default from_option Datatypes.id]. apply or_else_nonempty. intros H.
    pose proof (advance_note_nonempty r n) as Hne.
    apply nonempty_true in Hne. exact (Hne H). }
  rewrite Hn. reflexivity.
Qed.

Lemma advance_denied s r ts :
  spec_gate r (active s) = None -> advance s r ts = (None, Some denial).
Proof.
  intros Hg. unfold advance. rewrite nextFor_spec_gate, Hg. reflexivity.
Qed.

(** C5. In a state that is not read-only, [advance] either moves [active]
    to the one step the gating table permits for the role, records [ts] as
    the timestamp of that step unless the step already has one (which is
    then kept), leaves every other timestamp and every context field as it
    was, appends exactly one audit entry and shows no message; or, when the
    table permits no step, shows the denial message and leaves the state and
    the local store as they were. *)
Theorem advance_all_or_nothing (w : World) (ts : jstring) :
  readonly (state w) = false ->
  let s := state w in
  let s' := state (step w (Advance ts)) in
  match spec_gate (role w) (active s) with
  | Some n =>
      active s' = n
      /\ (obj_get (completed s) n = None -> obj_get (completed s') n = Some ts)
      /\ (forall t, obj_get (completed s) n = Some t -> t <> [] ->
                    obj_get (completed s') n = Some t)
      /\ (forall x, x <> n -> obj_get (completed s') x = obj_get (completed s) x)
      /\ log s' = log s ++ [mkLogEntry ts (role w) (advance_note (role w) n)]
      /\ (forall f, field s' f = field s f)
      /\ readonly s' = false
      /\ alerts (step w (Advance ts)) = alerts w
  | None =>
      s' = s
      /\ localStorage (step w (Advance ts)) = localStorage w
      /\ alerts (step w (Advance ts)) = alerts w ++ [denial]
  end.
Proof.
  intros Hro s s'. subst s s'.
  destruct (spec_gate (role w) (active (state w))) as [n|] eqn:Hg.
  - pose proof (advance_permitted (state w) (role w) ts n Hro Hg) as Ha.
    rewrite state_step. unfold step, update_of, effects_of. rewrite Ha.
    cbn [fst snd default from_option Datatypes.id commit alert state active completed log readonly alerts].
    split; [reflexivity|]. split.
    { intros Hn. rewrite Hn. cbn [default from_option Datatypes.id]. apply obj_get_set_eq. }
    split.
    { intros t Ht Hne. rewrite Ht. cbn [default from_option Datatypes.id].
      rewrite or_else_nonempty by assumption. apply obj_get_set_eq. }
    split.
    { intros x Hx. apply obj_get_set_ne. congruence. }
    split; [reflexivity|]. split; [intros []; reflexivity|].
    split; reflexivity.
  - pose proof (advance_denied (state w) (role w) ts Hg) as Ha.
    rewrite state_step, localStorage_step.
    unfold step, update_of, effects_of. rewrite Ha.
    cbn [fst snd default from_option Datatypes.id commit alert alerts]. split; [|split]; reflexivity.
Qed.

Lemma advance_all_or_nothing_witness :
  readonly (state sample_world) = false
  /\ active (state (step sample_world (Advance t3))) = it_ok.
Proof.
  split; [reflexivity|].
  pose proof (advance_all_or_nothing sample_world t3 eq_refl) as H.
  exact (proj1 H).
Defined.

(** ** First arrival wins *)

Lemma stamped_Forall s :
  stamped s = true <-> Forall (fun p => snd p <> []) (completed s).
Proof.
  unfold stamped. induction (completed s) as [|[x t] c IH]; simpl.
  - split; [constructor | reflexivity].
  - rewrite andb_true_iff, IH, nonempty_true. split.
    + intros [? ?]. constructor; assumption.
    + inversion 1; subst. split; assumption.
Qed.

Lemma active_stamped_true s :
  active_stamped s = true <-> is_Some (obj_get (completed s) (active s)).
Proof. unfold active_stamped. apply bool_decide_eq_true. Qed.

(** What one event other than a reset does to the record of arrivals. *)
Lemma step_keeps_stamps w e :
  ticking e = true -> stamped (state w) = true ->
  (forall x t, obj_get (completed (state w)) x = Some t ->
               obj_get (completed (state (step w e))) x = Some t)
  /\ stamped (state (step w e)) = true
  /\ (active_stamped (state w) = true -> active_stamped (state (step w e)) = true).
Proof.
  intros He Hst. rewrite state_step.
  destruct e as [ts|f v|c now|r|o p]; try discriminate He; unfold update_of.
  - (* advance *)
    unfold advance. destruct (nextFor (state w) (role w)) as [n|]; cbn [fst];
      [|cbn [default from_option Datatypes.id]; tauto].
    unfold setActive. destruct (readonly (state w)); cbn [default from_option Datatypes.id]; [tauto|].
    cbn [completed active]. cbn [ticking] in He. apply nonempty_true in He.
    assert (Hv : or_else (default [] (obj_get (completed (state w)) n)) ts <> []).
    { unfold or_else. destruct (nonempty _) eqn:Hn; [apply nonempty_true, Hn | exact He]. }
    split; [|split].
    + intros x t Hx. destruct (decide (n = x)) as [->|Hne].
      * rewrite Hx. cbn [default from_option Datatypes.id].
        assert (t <> []) as Ht.
        { apply stamped_Forall in Hst.
          exact (obj_get_Forall (fun t => t <> []) _ _ _ Hst Hx). }
        rewrite or_else_nonempty by assumption. apply obj_get_set_eq.
      * rewrite obj_get_set_ne by assumption. exact Hx.
    + apply stamped_Forall. cbn [completed].
      apply (Forall_obj_set (fun t => t <> [])); [apply stamped_Forall, Hst | exact Hv].
    + intros _. apply active_stamped_true. cbn [completed active].
      rewrite obj_get_set_eq. eexists; reflexivity.
  - (* an edit of a context field *)
    cbn [default from_option Datatypes.id]. split; [|split]; [intros; assumption | exact Hst | intros H; exact H].
  - cbn [default from_option Datatypes.id]. tauto.
  - cbn [default from_option Datatypes.id]. tauto.
Qed.

Lemma run_keeps_stamps es : forall w,
  forallb ticking es = true -> stamped (state w) = true ->
  active_stamped (state w) = true ->
  (forall x t, obj_get (completed (state w)) x = Some t ->
               obj_get (completed (state (run w es))) x = Some t)
  /\ stamped (state (run w es)) = true
  /\ active_stamped (state (run w es)) = true.
Proof.
  induction es as [|e es IH]; intros w Hes Hst Hact.
  - split; [intros; assumption | split; assumption].
  - cbn [forallb] in Hes. apply andb_true_iff in Hes as [He Hes].
    destruct (step_keeps_stamps w e He Hst) as (Hkeep & Hst' & Hact').
    destruct (IH (step w e) Hes Hst' (Hact' Hact)) as (Hkeep2 & Hst2 & Hact2).
    unfold run in *. cbn [foldl]. split; [|split; assumption].
    intros x t Hx. apply Hkeep2, Hkeep, Hx.
Qed.

(** C6. Along every sequence of events without a reset (advances by any
    role, changes of role, edits of context fields, shares), starting from a
    state whose active step has a timestamp: a timestamp once in [completed]
    stays there with the same value, in particular when [advance] arrives
    again at a step that already has one, and the active step always has a
    timestamp. Timestamps are readings of the clock, hence non-empty
    strings. *)
Theorem completed_first_arrival_wins (w : World) (es : list Event) :
  forallb ticking es = true ->
  stamped (state w) = true ->
  active_stamped (state w) = true ->
  (forall x t, obj_get (completed (state w)) x = Some t ->
               obj_get (completed (state (run w es))) x = Some t)
  /\ is_Some (obj_get (completed (state (run w es))) (active (state (run w es)))).
Proof.
  intros Hes Hst Hact.
  destruct (run_keeps_stamps es w Hes Hst Hact) as (Hkeep & _ & Hact').
  split; [exact Hkeep | apply active_stamped_true, Hact'].
Qed.

Lemma completed_first_arrival_wins_witness :
  obj_get (completed (state (run sample_world
     [Advance t3; SetRole it; Advance t0; SetRole operator; Advance t1]))) it_ok
  = Some t3.
Proof.
  pose proof (completed_first_arrival_wins
                (step sample_world (Advance t3))
                [SetRole it; Advance t0; SetRole operator; Advance t1]
                eq_refl eq_refl eq_refl) as [H _].
  apply (H it_ok t3). reflexivity.
Defined.

(** Whatever the seed, the state [initial] builds starts the flow anew. *)
Lemma initial_shape seed now s :
  initial seed now = Some s ->
  active s = DEFAULT_STEP
  /\ completed s = [(started, now)]
  /\ log s = [mkLogEntry now operator (js "Tracker created")]
  /\ readonly s = truthy (get_prop seed (js "readonly")).
Proof.
  intros Hi. unfold initial in Hi.
  destruct seed; try discriminate Hi;
    repeat (match type of Hi with
            | context [string_field ?v ?k] => destruct (string_field v k)
            end; cbn [mbind option_bind] in Hi; try discriminate Hi);
    injection Hi as <-; (split; [|split; [|split]]); reflexivity.
Qed.

(** The state [initial] builds satisfies the two conditions. *)
Lemma initial_stamped seed now s :
  now <> [] -> initial seed now = Some s ->
  stamped s = true /\ active_stamped s = true.
Proof.
  intros Hnow Hi. destruct (initial_shape seed now s Hi) as (Ha & Hc & _).
  split.
  - unfold stamped. rewrite Hc. cbn [forallb snd]. apply nonempty_true in Hnow.
    rewrite Hnow. reflexivity.
  - unfold active_stamped. rewrite Ha, Hc. reflexivity.
Qed.

(** ** Reset *)

(** C8, as amended. [reset] acts only once the caller has confirmed:
    declined, it leaves the world as it was. Confirmed, it sets [active] and
    [completed] to what a fresh creation at the same reading of the clock
    has ([started], and [started] alone stamped with [now]), sets [log] to a
    single entry by [operator] at [now] whose description is
    [Tracker reset] (a fresh creation logs [Tracker created]), keeps the
    five context fields and sets [readonly] to [false]. *)
Theorem reset_reinitialises (w : World) (now : jstring) :
  step w (Reset false now) = w
  /\ let s' := state (step w (Reset true now)) in
     active s' = started
     /\ completed s' = [(started, now)]
     /\ log s' = [mkLogEntry now operator (js "Tracker reset")]
     /\ (forall f, field s' f = field (state w) f)
     /\ readonly s' = false
     /\ (forall seed s0, initial seed now = Some s0 ->
           active s' = active s0 /\ completed s' = completed s0
           /\ log s0 = [mkLogEntry now operator (js "Tracker created")]).
Proof.
  split; [reflexivity|]. cbn zeta. rewrite state_step.
  unfold update_of, reset. cbn [negb default from_option Datatypes.id active completed log readonly].
  split; [reflexivity|]. split; [reflexivity|]. split; [reflexivity|].
  split; [intros []; reflexivity|]. split; [reflexivity|].
  intros seed s0 Hi. destruct (initial_shape seed now s0 Hi) as (Ha & Hc & Hl & _).
  rewrite Ha, Hc, Hl. split; [reflexivity | split; reflexivity].
Qed.

(** C8 as the specification states it fails: the log a confirmed reset
    leaves is not the log of a fresh creation at the same instant. *)
Lemma reset_log_is_not_creation_log :
  log <$> reset sample_state true t3
  <> log <$> initial (url_seed (js "INC-42") (js "PC-7") [] [] []) t3.
Proof. intros H. vm_compute in H. discriminate H. Qed.

(** ** Persistence *)

Lemma persist_spec s store :
  persist s store =
    if persistable s then <[key_of s := JSON_stringify (reify s)]> store else store.
Proof.
  unfold persist, persistable, key_of.
  destruct (readonly s), (nonempty (incidentId s)), (nonempty (machineId s)); reflexivity.
Qed.


(** The key separates two values of one identifier. *)
Lemma toKey_inj_incidentId i i' m : toKey i m = toKey i' m -> i = i'.
Proof.
  unfold toKey. intros H. apply app_inv_head in H.
  rewrite !app_assoc in H. apply app_inv_tail in H. apply app_inv_tail in H. exact H.
Qed.

Lemma toKey_inj_machineId i m m' : toKey i m = toKey i m' -> m = m'.
Proof.
  unfold toKey. intros H. do 3 apply app_inv_head in H. exact H.
Qed.

Lemma toKey_nonempty i m : toKey i m <> [].
Proof. unfold toKey. intros H. vm_compute in H. discriminate H. Qed.

(** An event writes at most the record of the state it leaves. *)
Lemma step_store_frame w e k :
  k <> key_of (state (step w e)) ->
  localStorage (step w e) !! k = localStorage w !! k.
Proof.
  rewrite state_step, localStorage_step.
  destruct (update_of w e) as [s'|]; [|reflexivity].
  cbn [default from_option Datatypes.id]. rewrite persist_spec. intros Hk.
  destruct (persistable s'); [|reflexivity].
  apply lookup_insert_ne. congruence.
Qed.

Lemma step_store_grows w e k :
  is_Some (localStorage w !! k) -> is_Some (localStorage (step w e) !! k).
Proof.
  rewrite localStorage_step. destruct (update_of w e) as [s'|]; [|tauto].
  rewrite persist_spec. destruct (persistable s'); [|tauto].
  intros Hk. destruct (decide (key_of s' = k)) as [<-|Hne].
  - rewrite lookup_insert_eq. eexists; reflexivity.
  - rewrite lookup_insert_ne by assumption. exact Hk.
Qed.

Lemma run_store_grows es : forall w k,
  is_Some (localStorage w !! k) -> is_Some (localStorage (run w es) !! k).
Proof.
  induction es as [|e es IH]; intros w k Hk; [exact Hk|].
  unfold run in *. cbn [foldl]. apply IH, step_store_grows, Hk.
Qed.

(** C10. When an edit changes [incidentId] or [machineId] in a session that
    is not read-only, the key of the new pair differs from the old key, the
    record under the old key is left as it was, the new state is written
    under the new key once both identifiers are non-empty, and every later
    event writes at most the record under the key of the state it leaves.
    No sequence of events, resets included, removes a record from the local
    store. *)
Theorem edit_of_identifier_rekeys (w : World) (f : Field) (v : jstring) :
  readonly (state w) = false ->
  identifying f = true ->
  v <> field (state w) f ->
  let w' := step w (SetField f v) in
  key_of (state w') <> key_of (state w)
  /\ localStorage w' !! key_of (state w) = localStorage w !! key_of (state w)
  /\ (nonempty (incidentId (state w')) && nonempty (machineId (state w')) = true ->
      localStorage w' !! key_of (state w') = Some (JSON_stringify (reify (state w'))))
  /\ (forall e k, k <> key_of (state (step w' e)) ->
                  localStorage (step w' e) !! k = localStorage w' !! k)
  /\ (forall es k, is_Some (localStorage w !! k) ->
                   is_Some (localStorage (run w es) !! k)).
Proof.
  intros Hro Hf Hv w'.
  assert (Hkey : key_of (state w') <> key_of (state w)).
  { subst w'. rewrite state_step. unfold update_of.
    cbn [default from_option Datatypes.id]. unfold key_of.
    destruct f; try discriminate Hf; cbn [setField incidentId machineId field] in *;
      intros Heq.
    - apply toKey_inj_incidentId in Heq. congruence.
    - apply toKey_inj_machineId in Heq. congruence. }
  split; [exact Hkey|]. split.
  { apply step_store_frame. intros Heq. apply Hkey. symmetry. exact Heq. }
  split.
  { assert (Hs : state w' = setField (state w) f v)
      by (subst w'; rewrite state_step; reflexivity).
    rewrite Hs. intros Hne. subst w'. rewrite localStorage_step. unfold update_of.
    rewrite persist_spec. unfold persistable.
    replace (readonly (setField (state w) f v)) with false
      by (symmetry; exact Hro).
    cbn [negb andb]. rewrite Hne. apply lookup_insert_eq. }
  split.
  { intros e k. apply step_store_frame. }
  intros es k. apply run_store_grows.
Qed.

Lemma edit_of_identifier_rekeys_witness :
  localStorage (step sample_world (SetField FmachineId (js "PC-8")))
    !! key_of sample_state
  = Some (JSON_stringify (reify sample_state)).
Proof.
  pose proof (edit_of_identifier_rekeys sample_world FmachineId (js "PC-8")
                eq_refl eq_refl) as H.
  assert (Hv : js "PC-8" <> field (state sample_world) FmachineId).
  { intros Heq. vm_compute in Heq. discriminate Heq. }
  destruct (H Hv) as (_ & Hold & _).
  etransitivity; [exact Hold|]. apply lookup_singleton_eq.
Defined.

(** ** Bootstrap *)

Lemma JSON_parse_empty : JSON_parse [] = None.
Proof. reflexivity. Qed.

Lemma bootstrap_after_failed_token url store :
  decode (strip_state (hash url)) = None ->
  bootstrap url store =
    let i := param url (js "incidentId") in
    let m := param url (js "machineId") in
    match store !! toKey i m ≫= JSON_parse with
    | Some seed => seed
    | None => url_seed i m (param url (js "upn")) (param url (js "bu"))
                (param url (js "machineName"))
    end.
Proof.
  intros Hd. unfold bootstrap. rewrite Hd.
  destruct (nonempty (strip_state (hash url))); cbn zeta;
    (destruct (store !! toKey _ _) as [[|c0 c]|];
     cbn [mbind option_bind nonempty]; [rewrite JSON_parse_empty| |]; reflexivity).
Qed.

(** C7, as amended. When the token of the fragment fails to decode,
    [bootstrap] goes on to the local cache. It looks up the key
    [toKey incidentId machineId] of the two query parameters, each the empty
    string when the parameter is missing, so also when one or both
    identifiers are empty. A record found there that is not empty and
    parses is returned. When the store has no record under that key, or the
    record does not parse, the result is the object with exactly the five
    properties [incidentId], [machineId], [upn], [bu], [machineName], in
    this order, each the value of its query parameter or the empty string,
    and none of [active], [completed], [log], [readonly]. *)
Theorem bootstrap_falls_through (url : Location) (store : gmap jstring jstring) :
  decode (strip_state (hash url)) = None ->
  let i := param url (js "incidentId") in
  let m := param url (js "machineId") in
  let fallback :=
    VObj [ (js "incidentId", VStr i); (js "machineId", VStr m);
           (js "upn", VStr (param url (js "upn")));
           (js "bu", VStr (param url (js "bu")));
           (js "machineName", VStr (param url (js "machineName"))) ] in
  (forall c seed, store !! toKey i m = Some c -> JSON_parse c = Some seed ->
                  c <> [] /\ bootstrap url store = seed)
  /\ (store !! toKey i m = None -> bootstrap url store = fallback)
  /\ (forall c, store !! toKey i m = Some c -> JSON_parse c = None ->
                bootstrap url store = fallback)
  /\ (forall name, obj_get (searchParams url) name = None -> param url name = [])
  /\ (forall name v, obj_get (searchParams url) name = Some v -> param url name = v)
  /\ get_prop fallback (js "active") = None
  /\ get_prop fallback (js "completed") = None
  /\ get_prop fallback (js "log") = None
  /\ get_prop fallback (js "readonly") = None.
Proof.
  intros Hd i m fallback. rewrite (bootstrap_after_failed_token url store Hd).
  cbn zeta. fold i m. unfold url_seed. fold fallback.
  split.
  { intros c seed -> Hp. cbn [mbind option_bind]. rewrite Hp. split; [|reflexivity].
    intros ->. rewrite JSON_parse_empty in Hp. discriminate Hp. }
  split; [intros ->; reflexivity|].
  split; [intros c -> Hp; cbn [mbind option_bind]; rewrite Hp; reflexivity|].
  split; [intros name Hn; unfold param; rewrite Hn; reflexivity|].
  split; [intros name v Hn; unfold param; rewrite Hn; reflexivity|].
  split; [|split; [|split]]; reflexivity.
Qed.

Lemma bootstrap_falls_through_witness :
  bootstrap (mkLocation (js "#state=%%%")
               [(js "incidentId", js "INC-42"); (js "machineId", js "PC-7")])
            (localStorage sample_world)
  = reify sample_state
  /\ bootstrap (mkLocation (js "#state=%%%")
                  [(js "incidentId", js "INC-42"); (js "upn", js "ana@example.org")])
               (localStorage sample_world)
     = VObj [ (js "incidentId", VStr (js "INC-42")); (js "machineId", VStr []);
              (js "upn", VStr (js "ana@example.org")); (js "bu", VStr []);
              (js "machineName", VStr []) ].
Proof.
  assert (Hd : decode (strip_state (js "#state=%%%")) = None) by (vm_compute; reflexivity).
  split.
  - destruct (bootstrap_falls_through
                (mkLocation (js "#state=%%%")
                   [(js "incidentId", js "INC-42"); (js "machineId", js "PC-7")])
                (localStorage sample_world) Hd) as (Hc & _).
    apply (Hc (JSON_stringify (reify sample_state))).
    + apply lookup_singleton_eq.
    + vm_compute. reflexivity.
  - destruct (bootstrap_falls_through
                (mkLocation (js "#state=%%%")
                   [(js "incidentId", js "INC-42"); (js "upn", js "ana@example.org")])
                (localStorage sample_world) Hd) as (_ & Hn & _).
    rewrite Hn; [reflexivity|]. vm_compute. reflexivity.
Defined.

(** C7 as the specification states it fails: the cache is also read when
    the identifiers are empty. With no query at all the key is [unisov2::],
    and a record stored under it is returned; and with no [incidentId] in
    the query, a record that the effect itself wrote for the identifiers
    [:INC] and [PC-7] is returned for the [machineId] parameter [INC:PC-7]. *)
Lemma cache_is_read_with_empty_identifiers :
  decode (strip_state (js "#state=%%%")) = None
  /\ param (mkLocation (js "#state=%%%") []) (js "incidentId") = []
  /\ param (mkLocation (js "#state=%%%") []) (js "machineId") = []
  /\ bootstrap (mkLocation (js "#state=%%%") [])
               {[ js "unisov2::" := JSON_stringify (reify sample_state) ]}
     = reify sample_state
  /\ bootstrap (mkLocation [] [(js "machineId", js "INC:PC-7")])
               (persist (setField sample_state FincidentId (js ":INC")) ∅)
     = reify (setField sample_state FincidentId (js ":INC")).
Proof.
  split; [vm_compute; reflexivity|]. split; [reflexivity|]. split; [reflexivity|].
  split; vm_compute; reflexivity.
Qed.

(** ** Initial state *)

(** C1 fails on the code: a location whose fragment is the token [share]
    makes for [sample_state] (active step [it_sent], three timestamps, three
    log entries) decodes to the full snapshot, and [initial] then starts the
    flow anew: the first render shows [started], one timestamp and the one
    entry [Tracker created]; of the seed it keeps the context fields and
    [readonly]. *)
Theorem initial_restarts_shared_progress :
  exists token,
    encode sample_state = Some token
    /\ bootstrap (mkLocation (js "#state=" ++ token) []) ∅ = reify (snap sample_state)
    /\ get_prop (reify (snap sample_state)) (js "active") = Some (VStr (js "it_sent"))
    /\ state <$> mount (mkLocation (js "#state=" ++ token) []) ∅ t3
       = Some {| incidentId := incidentId sample_state;
                 machineId := machineId sample_state;
                 machineName := machineName sample_state;
                 upn := upn sample_state;
                 bu := bu sample_state;
                 active := started;
                 completed := [(started, t3)];
                 log := [mkLogEntry t3 operator (js "Tracker created")];
                 readonly := true |}.
Proof.
  eexists. split; [vm_compute; reflexivity|].
  split; [vm_compute; reflexivity|].
  split; vm_compute; reflexivity.
Qed.

(** ** The codec: digits and octets *)

Lemma below_check (n : nat) (P : N -> bool) :
  forallb P (map N.of_nat (seq 0 n)) = true ->
  forall x, x < N.of_nat n -> P x = true.
Proof.
  intros Hall x Hx. rewrite forallb_forall in Hall. apply Hall.
  apply in_map_iff. exists (N.to_nat x). split; [apply N2Nat.id|].
  apply in_seq. lia.
Qed.

Ltac by_cases_below n x Hx :=
  revert x Hx; apply (below_check n); vm_compute; reflexivity.

Lemma hex_val_digit u d : d < 16 -> hex_val (hex_digit u d) = Some d.
Proof.
  intros Hd. destruct u.
  - assert (H : (fun d => bool_decide (hex_val (hex_digit true d) = Some d)) d = true)
      by (by_cases_below 16%nat d Hd).
    apply bool_decide_eq_true in H. exact H.
  - assert (H : (fun d => bool_decide (hex_val (hex_digit false d) = Some d)) d = true)
      by (by_cases_below 16%nat d Hd).
    apply bool_decide_eq_true in H. exact H.
Qed.

Lemma hex_digit_upper_not_u d : d < 16 -> (hex_digit true d =? 117) = false.
Proof.
  intros Hd.
  assert (H : (fun d => negb (hex_digit true d =? 117)) d = true)
    by (by_cases_below 16%nat d Hd).
  apply negb_true_iff in H. exact H.
Qed.

Lemma hex2_digits u b :
  b < 256 -> hex2 (hex_digit u (b / 16)) (hex_digit u (b mod 16)) = Some b.
Proof.
  intros Hb. unfold hex2.
  rewrite !hex_val_digit by lia. cbn [mbind option_bind]. f_equal. lia.
Qed.

Lemma hex4_digits u c :
  c < 65536 ->
  hex4 (hex_digit u (c / 4096)) (hex_digit u ((c / 256) mod 16))
       (hex_digit u ((c / 16) mod 16)) (hex_digit u (c mod 16)) = Some c.
Proof.
  intros Hc. unfold hex4, hex2.
  rewrite !hex_val_digit by lia. cbn [mbind option_bind]. f_equal. lia.
Qed.

(** ** The codec: base64 *)

Lemma b64_index_char i : i < 64 -> b64_index (b64_char i) = Some i.
Proof.
  intros Hi.
  assert (H : (fun i => bool_decide (b64_index (b64_char i) = Some i)) i = true)
    by (by_cases_below 64%nat i Hi).
  apply bool_decide_eq_true in H. exact H.
Qed.

Lemma b64_char_plain i :
  i < 64 -> is_ascii_ws (b64_char i) = false /\ (b64_char i =? 61) = false.
Proof.
  intros Hi.
  assert (H : (fun i => negb (is_ascii_ws (b64_char i)) && negb (b64_char i =? 61)) i = true)
    by (by_cases_below 64%nat i Hi).
  apply andb_true_iff in H as [H1 H2].
  apply negb_true_iff in H1. apply negb_true_iff in H2. split; assumption.
Qed.

(** Induction on a list three items at a time. *)
Lemma list_ind3 {A} (P : list A -> Prop) :
  P [] -> (forall a, P [a]) -> (forall a b, P [a; b]) ->
  (forall a b c r, P r -> P (a :: b :: c :: r)) ->
  forall l, P l.
Proof.
  intros H0 H1 H2 H3.
  assert (H : forall l, P l /\ (forall a, P (a :: l)) /\ (forall a b, P (a :: b :: l))).
  { induction l as [|c l (IH0 & IH1 & IH2)].
    - split; [exact H0 | split; [exact H1 | exact H2]].
    - split; [apply IH1 | split; [intros a; apply IH2 |]].
      intros a b. apply H3, IH0. }
  intros l. apply H.
Qed.

Lemma octets_forallb bs : octets bs -> forallb (fun c => c <? 256) bs = true.
Proof.
  induction 1 as [|b bs Hb _ IH]; [reflexivity|].
  cbn [forallb]. rewrite IH. apply N.ltb_lt in Hb. rewrite Hb. reflexivity.
Qed.

Lemma b64_encode_body_pad bs : b64_encode bs = b64_body bs ++ b64_pad bs.
Proof.
  induction bs as [|a|a b|a b c r IH] using list_ind3; try reflexivity.
  cbn [b64_encode b64_body]. rewrite IH. cbn [app]. do 5 f_equal.
  unfold b64_pad. cbn [length].
  replace (S (S (S (length r))) mod 3)%nat with (length r mod 3)%nat; [reflexivity|].
  change (S (S (S (length r)))) with (3 + length r)%nat.
  rewrite <- Nat.Div0.add_mod_idemp_l. reflexivity.
Qed.

Lemma b64_body_plain bs :
  octets bs ->
  Forall (fun c => is_ascii_ws c = false /\ (c =? 61) = false) (b64_body bs).
Proof.
  induction bs as [|a|a b|a b c r IH] using list_ind3; intros Hbs; cbn [b64_body].
  - constructor.
  - inversion Hbs; subst. repeat constructor; apply b64_char_plain; lia.
  - inversion Hbs as [|? ? Ha Hbs']; subst. inversion Hbs'; subst.
    repeat constructor; apply b64_char_plain; lia.
  - inversion Hbs as [|? ? Ha Hbs1]; subst. inversion Hbs1 as [|? ? Hb Hbs2]; subst.
    inversion Hbs2 as [|? ? Hc Hr]; subst.
    repeat (constructor; [apply b64_char_plain; lia|]). apply IH, Hr.
Qed.

Lemma b64_body_length bs :
  (length (b64_body bs ++ b64_pad bs) mod 4 = 0)%nat.
Proof.
  induction bs as [|a|a b|a b c r IH] using list_ind3; try reflexivity.
  cbn [b64_body app length].
  replace (b64_pad (a :: b :: c :: r)) with (b64_pad r).
  - change (S (S (S (S (length (b64_body r ++ b64_pad r))))))
      with (4 + length (b64_body r ++ b64_pad r))%nat.
    rewrite <- Nat.Div0.add_mod_idemp_l. exact IH.
  - unfold b64_pad. cbn [length].
    change (S (S (S (length r)))) with (3 + length r)%nat.
    rewrite <- (Nat.Div0.add_mod_idemp_l 3). reflexivity.
Qed.

Lemma b64_pad_cases bs : b64_pad bs = [] \/ b64_pad bs = [61] \/ b64_pad bs = [61; 61].
Proof.
  unfold b64_pad. destruct (length bs mod 3)%nat as [|[|[|n]]]; auto.
Qed.

Lemma strip_padding_encode bs :
  octets bs -> strip_padding (b64_encode bs) = b64_body bs.
Proof.
  intros Hbs. rewrite b64_encode_body_pad. unfold strip_padding.
  rewrite b64_body_length. cbn [Nat.eqb].
  pose proof (b64_body_plain bs Hbs) as Hplain.
  assert (Hlast : forall q r, reverse (b64_body bs) = q :: r -> (q =? 61) = false).
  { intros q r Hr. rewrite Forall_forall in Hplain.
    apply (Hplain q). apply elem_of_reverse. rewrite Hr. left. }
  destruct (b64_pad_cases bs) as [-> | [-> | ->]].
  - rewrite !app_nil_r.
    destruct (reverse (b64_body bs)) as [|p [|q r]] eqn:Hr.
    + reflexivity.
    + rewrite (Hlast p [] eq_refl). reflexivity.
    + rewrite (Hlast p (q :: r) eq_refl). reflexivity.
  - rewrite reverse_app. change (reverse [61]) with [61]. cbn [app].
    destruct (reverse (b64_body bs)) as [|q r] eqn:Hr.
    + apply (f_equal reverse) in Hr.
      rewrite reverse_involutive in Hr. rewrite Hr. reflexivity.
    + change (61 =? 61) with true. cbv iota. rewrite (Hlast q r eq_refl).
      rewrite <- Hr. apply reverse_involutive.
  - rewrite reverse_app. change (reverse [61; 61]) with [61; 61]. cbn [app].
    change (61 =? 61) with true. cbv iota. apply reverse_involutive.
Qed.

Lemma b64_decode_body bs : octets bs -> b64_decode (b64_body bs) = Some bs.
Proof.
  induction bs as [|a|a b|a b c r IH] using list_ind3; intros Hbs.
  - reflexivity.
  - inversion Hbs; subst. cbn [b64_body b64_decode].
    rewrite !b64_index_char by lia. cbn [mbind option_bind]. do 2 f_equal. lia.
  - inversion Hbs as [|? ? Ha Hbs']; subst. inversion Hbs'; subst.
    cbn [b64_body b64_decode].
    rewrite !b64_index_char by lia. cbn [mbind option_bind].
    f_equal. f_equal; [lia|]. f_equal. lia.
  - inversion Hbs as [|? ? Ha Hbs1]; subst. inversion Hbs1 as [|? ? Hb Hbs2]; subst.
    inversion Hbs2 as [|? ? Hc Hr]; subst.
    cbn [b64_body b64_decode].
    rewrite !b64_index_char by lia. cbn [mbind option_bind].
    rewrite (IH Hr). cbn [fmap option_fmap option_map app].
    f_equal. f_equal; [lia|]. f_equal; [lia|]. f_equal. lia.
Qed.

Lemma filter_plain (P : N -> bool) (l : jstring) :
  Forall (fun c => P c = false) l -> filter (fun c => P c = false) l = l.
Proof.
  induction 1 as [|c l Hc _ IH]; [reflexivity|].
  rewrite filter_cons_True by exact Hc. rewrite IH. reflexivity.
Qed.

(** [atob] undoes [btoa]; [btoa] accepts every sequence of octets. *)
Lemma atob_btoa bs :
  octets bs -> exists t, btoa bs = Some t /\ atob t = Some bs.
Proof.
  intros Hbs. exists (b64_encode bs). split.
  - unfold btoa. rewrite octets_forallb by assumption. reflexivity.
  - unfold atob. rewrite filter_plain.
    + rewrite strip_padding_encode by assumption. apply b64_decode_body, Hbs.
    + rewrite b64_encode_body_pad. apply Forall_app. split.
      * eapply Forall_impl; [apply b64_body_plain, Hbs|]. intros c [Hc _]. exact Hc.
      * destruct (b64_pad_cases bs) as [-> | [-> | ->]]; repeat constructor.
Qed.

(** ** The codec: percent escapes and UTF-8 *)

(** Case analysis on every comparison of the goal. *)
Ltac cases_N :=
  repeat match goal with
         | |- context [?a <=? ?b] => destruct (N.leb_spec a b); try lia
         | |- context [?a <? ?b] => destruct (N.ltb_spec a b); try lia
         | |- context [?a =? ?b] => destruct (N.eqb_spec a b); try lia
         end.

Lemma is_alnum_ascii c : is_alnum c = true -> c < 128 /\ c <> 37.
Proof.
  unfold is_alnum, is_digit, between. cases_N; cbn [andb orb]; try discriminate;
    intros _; lia.
Qed.

Lemma mem_ascii c l :
  forallb (fun x => (x <? 128) && negb (x =? 37)) l = true ->
  mem c l = true -> c < 128 /\ c <> 37.
Proof.
  unfold mem. induction l as [|x l IH]; cbn [forallb existsb]; [discriminate|].
  intros Hl Hc. apply andb_true_iff in Hl as [Hx Hl].
  apply orb_true_iff in Hc as [Hc | Hc]; [|exact (IH Hl Hc)].
  apply N.eqb_eq in Hc. subst x. apply andb_true_iff in Hx as [H1 H2].
  apply N.ltb_lt in H1. apply negb_true_iff, N.eqb_neq in H2. split; assumption.
Qed.

Lemma uri_unreserved_ascii c : uri_unreserved c = true -> c < 128 /\ c <> 37.
Proof.
  unfold uri_unreserved. intros H. apply orb_true_iff in H as [H | H].
  - apply is_alnum_ascii, H.
  - revert H. apply mem_ascii. vm_compute. reflexivity.
Qed.

Lemma escape_unreserved_ascii c : escape_unreserved c = true -> c < 128 /\ c <> 37.
Proof.
  unfold escape_unreserved. intros H. apply orb_true_iff in H as [H | H].
  - apply is_alnum_ascii, H.
  - revert H. apply mem_ascii. vm_compute. reflexivity.
Qed.

Lemma unescape_lit c rest : c <> 37 -> unescape (c :: rest) = c :: unescape rest.
Proof.
  intros Hc. cbn [unescape]. apply N.eqb_neq in Hc. rewrite Hc. reflexivity.
Qed.

Lemma unescape_pct b rest : b < 256 -> unescape (pct b ++ rest) = b :: unescape rest.
Proof.
  intros Hb. unfold pct. cbn [app].
  assert (Hu : (hex_digit true (b / 16) =? 117) = false)
    by (apply hex_digit_upper_not_u; lia).
  pose proof (hex2_digits true b Hb) as Hh.
  generalize dependent (hex_digit true (b / 16)).
  generalize dependent (hex_digit true (b mod 16)).
  intros y x Hu Hh. cbn [unescape]. change (37 =? 37) with true. cbv iota.
  rewrite Hu, Hh. reflexivity.
Qed.

Lemma unescape_pct_octets bs rest :
  octets bs -> unescape (pct_octets bs ++ rest) = bs ++ unescape rest.
Proof.
  induction 1 as [|b bs Hb _ IH]; [reflexivity|].
  unfold pct_octets in *. cbn [flat_map]. rewrite <- app_assoc.
  rewrite unescape_pct by assumption. rewrite IH. reflexivity.
Qed.

Lemma utf8_octets_octets cp : cp <= 1114111 -> octets (utf8_octets cp).
Proof.
  intros Hcp. unfold utf8_octets, octets. cases_N; repeat constructor; lia.
Qed.

Lemma pair_cp_range h l :
  is_high h = true -> is_low l = true -> 65536 <= pair_cp h l <= 1114111.
Proof.
  unfold is_high, is_low, between, pair_cp. intros Hh Hl.
  apply andb_true_iff in Hh as [Hh1 Hh2]. apply andb_true_iff in Hl as [Hl1 Hl2].
  apply N.leb_le in Hh1, Hh2, Hl1, Hl2. lia.
Qed.

Lemma utf8_octets_all wf s :
  wf = wf_string s -> wf -> well_formed s = true -> octets (utf8 s).
Proof.
  intros -> Hs. induction s as [s IH] using (induction_ltof1 _ (@length N)).
  unfold ltof in IH. destruct s as [|c r]; [constructor|].
  inversion Hs as [|? ? Hc Hr]; subst. cbn [well_formed utf8].
  destruct (is_high c) eqn:Hh.
  - destruct r as [|d r']; [discriminate|]. intros Hw.
    apply andb_true_iff in Hw as [Hl Hw]. inversion Hr; subst.
    apply Forall_app. split.
    + apply utf8_octets_octets. pose proof (pair_cp_range c d Hh Hl). lia.
    + apply IH; [cbn [length]; lia | assumption | assumption].
  - destruct (is_low c); [discriminate|]. intros Hw.
    apply Forall_app. split.
    + apply utf8_octets_octets. lia.
    + apply IH; [cbn [length]; lia | assumption | assumption].
Qed.

(** [unescape (encodeURIComponent s)] is the UTF-8 text of [s]. *)
Lemma unescape_encodeURIComponent s :
  wf_string s -> well_formed s = true ->
  exists p, encodeURIComponent s = Some p /\ unescape p = utf8 s.
Proof.
  intros Hs. induction s as [s IH] using (induction_ltof1 _ (@length N)).
  unfold ltof in IH. destruct s as [|c r]; [exists []; split; reflexivity|].
  inversion Hs as [|? ? Hc Hr]; subst. cbn [well_formed utf8 encodeURIComponent].
  destruct (uri_unreserved c) eqn:Hu.
  - destruct (uri_unreserved_ascii c Hu) as [Hlt Hne].
    assert (Hh : is_high c = false) by (unfold is_high, between; cases_N; reflexivity).
    assert (Hl : is_low c = false) by (unfold is_low, between; cases_N; reflexivity).
    rewrite Hh, Hl. intros Hw.
    destruct (IH r) as (p & Hp & Hun); [cbn [length]; lia | assumption | assumption |].
    exists (c :: p). rewrite Hp. split; [reflexivity|].
    rewrite unescape_lit by assumption. rewrite Hun.
    unfold utf8_octets. apply N.ltb_lt in Hlt. rewrite Hlt. reflexivity.
  - destruct (is_high c) eqn:Hh.
    + assert (Hl : is_low c = false).
      { unfold is_high, is_low, between in *. revert Hh. cases_N; cbn [andb]; congruence. }
      rewrite Hl. destruct r as [|d r']; [discriminate|]. intros Hw.
      apply andb_true_iff in Hw as [Hld Hw]. rewrite Hld. inversion Hr; subst.
      destruct (IH r') as (p & Hp & Hun); [cbn [length]; lia | assumption | assumption |].
      rewrite Hp. eexists. split; [reflexivity|].
      rewrite unescape_pct_octets.
      * rewrite Hun. reflexivity.
      * apply utf8_octets_octets. pose proof (pair_cp_range c d Hh Hld). lia.
    + destruct (is_low c); [discriminate|]. intros Hw.
      destruct (IH r) as (p & Hp & Hun); [cbn [length]; lia | assumption | assumption |].
      rewrite Hp. eexists. split; [reflexivity|].
      rewrite unescape_pct_octets.
      * rewrite Hun. reflexivity.
      * apply utf8_octets_octets. lia.
Qed.

Lemma uri_scan_escape_unit b rest :
  b < 256 -> uri_scan (escape_unit b ++ rest) = cons (escaped_tok b) <$> uri_scan rest.
Proof.
  intros Hb. unfold escape_unit, escaped_tok.
  destruct (escape_unreserved b) eqn:Hu.
  - destruct (escape_unreserved_ascii b Hu) as [_ Hne].
    cbn [app uri_scan]. apply N.eqb_neq in Hne. rewrite Hne. reflexivity.
  - apply N.ltb_lt in Hb as Hb'. rewrite Hb'. unfold pct. cbn [app uri_scan].
    change (37 =? 37) with true. cbv iota.
    rewrite hex2_digits by assumption. reflexivity.
Qed.

Lemma uri_scan_escape bs :
  octets bs -> uri_scan (escape bs) = Some (map escaped_tok bs).
Proof.
  induction 1 as [|b bs Hb _ IH]; [reflexivity|].
  unfold escape in *. cbn [flat_map map].
  rewrite uri_scan_escape_unit by assumption. rewrite IH. reflexivity.
Qed.

Lemma escaped_tok_high b : 128 <= b -> escaped_tok b = Oct b.
Proof.
  intros Hb. unfold escaped_tok. destruct (escape_unreserved b) eqn:Hu; [|reflexivity].
  apply escape_unreserved_ascii in Hu. lia.
Qed.

Lemma utf8_cp2_octets cp :
  128 <= cp < 2048 -> utf8_cp2 (192 + cp / 64) (128 + cp mod 64) = Some cp.
Proof.
  intros Hcp. unfold utf8_cp2, is_cont, between.
  replace ((192 + cp / 64 - 192) * 64 + (128 + cp mod 64 - 128)) with cp by lia.
  cases_N; try reflexivity.
Qed.

Lemma utf8_cp3_octets cp :
  2048 <= cp < 65536 -> between 55296 57343 cp = false ->
  utf8_cp3 (224 + cp / 4096) (128 + (cp / 64) mod 64) (128 + cp mod 64) = Some cp.
Proof.
  intros Hcp Hns. unfold utf8_cp3, is_cont.
  replace ((224 + cp / 4096 - 224) * 4096 + (128 + (cp / 64) mod 64 - 128) * 64
           + (128 + cp mod 64 - 128)) with cp by lia.
  rewrite Hns. unfold between. cases_N; try reflexivity.
Qed.

Lemma utf8_cp4_octets cp :
  65536 <= cp <= 1114111 ->
  utf8_cp4 (240 + cp / 262144) (128 + (cp / 4096) mod 64)
           (128 + (cp / 64) mod 64) (128 + cp mod 64) = Some cp.
Proof.
  intros Hcp. unfold utf8_cp4, is_cont.
  replace ((240 + cp / 262144 - 240) * 262144 + (128 + (cp / 4096) mod 64 - 128) * 4096
           + (128 + (cp / 64) mod 64 - 128) * 64 + (128 + cp mod 64 - 128)) with cp by lia.
  unfold between. cases_N; try reflexivity.
Qed.

(** One code point read back from its octets. *)
Lemma uri_units_octets cp rest :
  cp <= 1114111 -> between 55296 57343 cp = false ->
  uri_units (map escaped_tok (utf8_octets cp) ++ rest)
  = app (utf16_units cp) <$> uri_units rest.
Proof.
  intros Hcp Hns. unfold utf8_octets.
  destruct (N.ltb_spec cp 128) as [H1|H1].
  { cbn [map app]. unfold escaped_tok, utf16_units.
    replace (cp <? 65536) with true by (symmetry; apply N.ltb_lt; lia).
    destruct (escape_unreserved cp); cbn [uri_units]; [reflexivity|].
    replace (cp <? 128) with true by (symmetry; apply N.ltb_lt; lia). reflexivity. }
  destruct (N.ltb_spec cp 2048) as [H2|H2].
  { cbn [map app]. rewrite !escaped_tok_high by lia. cbn [uri_units].
    rewrite utf8_cp2_octets by lia. cases_N; try reflexivity. }
  destruct (N.ltb_spec cp 65536) as [H3|H3].
  { cbn [map app]. rewrite !escaped_tok_high by lia. cbn [uri_units].
    rewrite utf8_cp3_octets by (assumption || lia). cases_N; try reflexivity. }
  cbn [map app]. rewrite !escaped_tok_high by lia. cbn [uri_units].
  rewrite utf8_cp4_octets by lia. cases_N; try reflexivity.
Qed.

Lemma utf16_units_pair h l :
  is_high h = true -> is_low l = true -> utf16_units (pair_cp h l) = [h; l].
Proof.
  unfold is_high, is_low, between, pair_cp, utf16_units. intros Hh Hl.
  apply andb_true_iff in Hh as [Hh1 Hh2]. apply andb_true_iff in Hl as [Hl1 Hl2].
  apply N.leb_le in Hh1, Hh2, Hl1, Hl2. cases_N. f_equal; [lia|]. f_equal. lia.
Qed.

Lemma utf16_units_bmp c : c < 65536 -> utf16_units c = [c].
Proof. intros Hc. unfold utf16_units. apply N.ltb_lt in Hc. rewrite Hc. reflexivity. Qed.

(** The UTF-8 text of a string, escaped and read back, is the string. *)
Lemma uri_units_utf8 s :
  wf_string s -> well_formed s = true ->
  uri_units (map escaped_tok (utf8 s)) = Some s.
Proof.
  intros Hs. induction s as [s IH] using (induction_ltof1 _ (@length N)).
  unfold ltof in IH. destruct s as [|c r]; [reflexivity|].
  inversion Hs as [|? ? Hc Hr]; subst. cbn [well_formed utf8].
  destruct (is_high c) eqn:Hh.
  - destruct r as [|d r']; [discriminate|]. intros Hw.
    apply andb_true_iff in Hw as [Hl Hw]. inversion Hr; subst.
    pose proof (pair_cp_range c d Hh Hl) as Hrange.
    rewrite map_app, uri_units_octets.
    + rewrite IH by (cbn [length]; lia || assumption).
      rewrite utf16_units_pair by assumption. reflexivity.
    + lia.
    + unfold between. cases_N; try reflexivity.
  - destruct (is_low c) eqn:Hl; [discriminate|]. intros Hw.
    rewrite map_app, uri_units_octets.
    + rewrite IH by (cbn [length]; lia || assumption).
      rewrite utf16_units_bmp by assumption. reflexivity.
    + lia.
    + unfold is_high, is_low, between in *. revert Hh Hl. cases_N; cbn [andb]; congruence.
Qed.

Lemma decodeURIComponent_escape_utf8 s :
  wf_string s -> well_formed s = true ->
  decodeURIComponent (escape (utf8 s)) = Some s.
Proof.
  intros Hs Hw. unfold decodeURIComponent.
  rewrite uri_scan_escape by (eapply utf8_octets_all; [reflexivity | assumption | assumption]).
  cbn [mbind option_bind]. apply uri_units_utf8; assumption.
Qed.

(** ** The codec: JSON strings *)

Lemma parse_string_raw c t :
  c <> 34 -> c <> 92 -> 32 <= c ->
  parse_string (c :: t) = p ← parse_string t; Some (c :: p.1, p.2).
Proof.
  intros H1 H2 H3. cbn [parse_string]. cases_N; try reflexivity.
Qed.

Lemma parse_string_simple e ch t :
  e <> 117 -> simple_escape e = Some ch ->
  parse_string (92 :: e :: t) = p ← parse_string t; Some (ch :: p.1, p.2).
Proof.
  intros He Hs. cbn [parse_string]. change (92 =? 34) with false.
  change (92 =? 92) with true. cbv iota. apply N.eqb_neq in He. rewrite He, Hs.
  reflexivity.
Qed.

Lemma parse_string_unicode c t :
  c < 65536 ->
  parse_string (unicode_escape c ++ t) = p ← parse_string t; Some (c :: p.1, p.2).
Proof.
  intros Hc. unfold unicode_escape. cbn [app].
  pose proof (hex4_digits false c Hc) as Hh.
  generalize dependent (hex_digit false (c / 4096)).
  generalize dependent (hex_digit false ((c / 256) mod 16)).
  generalize dependent (hex_digit false ((c / 16) mod 16)).
  generalize dependent (hex_digit false (c mod 16)).
  intros h4 h3 h2 h1 Hh. cbn [parse_string]. change (92 =? 34) with false.
  change (92 =? 92) with true. change (117 =? 117) with true. cbv iota.
  rewrite Hh. reflexivity.
Qed.

Lemma parse_string_quote_unit c t :
  c < 65536 ->
  parse_string (quote_unit c ++ t) = p ← parse_string t; Some (c :: p.1, p.2).
Proof.
  intros Hc. unfold quote_unit.
  destruct (N.eqb_spec c 8) as [->|?]; [apply parse_string_simple; [discriminate|reflexivity]|].
  destruct (N.eqb_spec c 9) as [->|?]; [apply parse_string_simple; [discriminate|reflexivity]|].
  destruct (N.eqb_spec c 10) as [->|?]; [apply parse_string_simple; [discriminate|reflexivity]|].
  destruct (N.eqb_spec c 12) as [->|?]; [apply parse_string_simple; [discriminate|reflexivity]|].
  destruct (N.eqb_spec c 13) as [->|?]; [apply parse_string_simple; [discriminate|reflexivity]|].
  destruct (N.eqb_spec c 34) as [->|?]; [apply parse_string_simple; [discriminate|reflexivity]|].
  destruct (N.eqb_spec c 92) as [->|?]; [apply parse_string_simple; [discriminate|reflexivity]|].
  destruct (N.ltb_spec c 32).
  - apply parse_string_unicode, Hc.
  - apply parse_string_raw; assumption.
Qed.

Lemma surrogate_raw c :
  is_high c = true \/ is_low c = true -> c <> 34 /\ c <> 92 /\ 32 <= c.
Proof.
  unfold is_high, is_low, between. intros [H | H];
    apply andb_true_iff in H as [H1 H2]; apply N.leb_le in H1, H2; lia.
Qed.

(** [JSON.parse] reads back the string [QuoteJSONString] wrote, lone
    surrogates included. *)
Lemma parse_string_quote_body s rest :
  wf_string s -> parse_string (quote_body s ++ 34 :: rest) = Some (s, rest).
Proof.
  intros Hs. induction s as [s IH] using (induction_ltof1 _ (@length N)).
  unfold ltof in IH. destruct s as [|c r]; [reflexivity|].
  inversion Hs as [|? ? Hc Hr]; subst. cbn [quote_body].
  destruct (is_high c) eqn:Hh.
  - destruct r as [|d r'].
    + rewrite parse_string_unicode by assumption. reflexivity.
    + destruct (is_low d) eqn:Hl.
      * inversion Hr; subst.
        destruct (surrogate_raw c (or_introl Hh)) as (? & ? & ?).
        destruct (surrogate_raw d (or_intror Hl)) as (? & ? & ?).
        cbn [app]. rewrite !parse_string_raw by assumption.
        rewrite IH by (cbn [length]; lia || assumption). reflexivity.
      * rewrite <- app_assoc, parse_string_unicode by assumption.
        rewrite IH by (cbn [length]; lia || assumption). reflexivity.
  - destruct (is_low c).
    + rewrite <- app_assoc, parse_string_unicode by assumption.
      rewrite IH by (cbn [length]; lia || assumption). reflexivity.
    + rewrite <- app_assoc, parse_string_quote_unit by assumption.
      rewrite IH by (cbn [length]; lia || assumption). reflexivity.
Qed.

Lemma sealed_nil : sealed [].
Proof. split; [constructor | reflexivity]. Qed.

Lemma sealed_app a b : sealed a -> sealed b -> sealed (a ++ b).
Proof.
  intros [Ha1 Ha2] [Hb1 Hb2]. split.
  - apply Forall_app. split; assumption.
  - intros rest. rewrite <- app_assoc, Ha2, Hb2. reflexivity.
Qed.

Lemma sealed_unit c : c < 55296 -> sealed [c].
Proof.
  intros Hc. split; [repeat constructor; lia|].
  intros rest. cbn [app well_formed]. unfold is_high, is_low, between.
  cases_N; try reflexivity.
Qed.

Lemma sealed_cons c t : c < 55296 -> sealed t -> sealed (c :: t).
Proof. intros Hc Ht. apply (sealed_app [c] t); [apply sealed_unit, Hc | exact Ht]. Qed.

Lemma sealed_ascii t : forallb (fun c => c <? 55296) t = true -> sealed t.
Proof.
  induction t as [|c t IH]; cbn [forallb]; intros H; [apply sealed_nil|].
  apply andb_true_iff in H as [Hc Ht]. apply N.ltb_lt in Hc.
  apply sealed_cons; [exact Hc | exact (IH Ht)].
Qed.

Lemma sealed_well_formed t : sealed t -> wf_string t /\ well_formed t = true.
Proof.
  intros [H1 H2]. split; [exact H1|].
  specialize (H2 []). rewrite app_nil_r in H2. exact H2.
Qed.

Lemma hex_digit_ascii u d : d < 16 -> hex_digit u d < 128.
Proof. intros Hd. unfold hex_digit. destruct u; cases_N. Qed.

Lemma sealed_unicode_escape c : c < 65536 -> sealed (unicode_escape c).
Proof.
  intros Hc. unfold unicode_escape.
  repeat (apply sealed_cons; [first [lia | (eapply N.lt_trans; [apply hex_digit_ascii; lia | lia])]|]).
  apply sealed_nil.
Qed.

Lemma sealed_quote_unit c :
  c < 65536 -> is_high c = false -> is_low c = false -> sealed (quote_unit c).
Proof.
  intros Hc Hh Hl. unfold quote_unit.
  repeat match goal with
         | |- context [?a =? ?b] => destruct (N.eqb_spec a b);
             [apply sealed_ascii; reflexivity|]
         end.
  destruct (N.ltb_spec c 32); [apply sealed_unicode_escape, Hc|].
  split; [repeat constructor; exact Hc|].
  intros rest. cbn [app well_formed]. rewrite Hh, Hl. reflexivity.
Qed.

Lemma sealed_quote_body s : wf_string s -> sealed (quote_body s).
Proof.
  intros Hs. induction s as [s IH] using (induction_ltof1 _ (@length N)).
  unfold ltof in IH. destruct s as [|c r]; [apply sealed_nil|].
  inversion Hs as [|? ? Hc Hr]; subst. cbn [quote_body].
  destruct (is_high c) eqn:Hh.
  - destruct r as [|d r']; [apply sealed_unicode_escape, Hc|].
    destruct (is_low d) eqn:Hl.
    + inversion Hr; subst.
      assert (Ht : sealed (quote_body r')) by (apply IH; [cbn [length]; lia | assumption]).
      destruct Ht as [Ht1 Ht2]. split.
      * repeat constructor; assumption.
      * intros rest. cbn [app well_formed]. rewrite Hh, Hl. apply Ht2.
    + apply sealed_app; [apply sealed_unicode_escape, Hc|].
      apply IH; [cbn [length]; lia | assumption].
  - destruct (is_low c) eqn:Hl.
    + apply sealed_app; [apply sealed_unicode_escape, Hc|].
      apply IH; [cbn [length]; lia | assumption].
    + apply sealed_app; [apply sealed_quote_unit; assumption|].
      apply IH; [cbn [length]; lia | assumption].
Qed.

Lemma sealed_QuoteJSONString s : wf_string s -> sealed (QuoteJSONString s).
Proof.
  intros Hs. unfold QuoteJSONString. apply sealed_cons; [lia|].
  apply sealed_app; [apply sealed_quote_body, Hs | apply sealed_unit; lia].
Qed.

(** ** The codec: JSON values *)

Lemma value_ind' (P : value -> Prop)
  (Hnull : P VNull) (Hbool : forall b, P (VBool b)) (Hnum : forall t, P (VNum t))
  (Hstr : forall s, P (VStr s))
  (Harr : forall xs, Forall P xs -> P (VArr xs))
  (Hobj : forall ps, Forall (fun p => P (snd p)) ps -> P (VObj ps)) :
  forall v, P v.
Proof.
  fix IH 1. intros [ | b | t | s | xs | ps].
  - exact Hnull.
  - apply Hbool.
  - apply Hnum.
  - apply Hstr.
  - apply Harr. induction xs as [|x xs IHxs]; constructor; [apply IH | exact IHxs].
  - apply Hobj. induction ps as [|p ps IHps]; constructor; [apply IH | exact IHps].
Qed.

Lemma plain_arr xs : plain (VArr xs) <-> Forall plain xs.
Proof.
  cbn [plain]. induction xs as [|x xs IH].
  - split; [constructor | exact (fun _ => I)].
  - rewrite Forall_cons, <- IH. reflexivity.
Qed.

Lemma plain_obj ps :
  plain (VObj ps) <->
  NoDup (map fst ps) /\ Forall (fun p => wf_string (fst p) /\ plain (snd p)) ps.
Proof.
  cbn [plain].
  assert (H : forall ps : list (jstring * value),
             (fix all (ps : list (jstring * value)) : Prop :=
                match ps with
                | [] => True
                | p :: r => (wf_string (fst p) /\ plain (snd p)) /\ all r
                end) ps
             <-> Forall (fun p => wf_string (fst p) /\ plain (snd p)) ps).
  { clear ps. induction ps as [|p ps IH].
    - split; [constructor | exact (fun _ => I)].
    - rewrite Forall_cons, <- IH. reflexivity. }
  rewrite H. reflexivity.
Qed.

Lemma skip_ws_cons c r : is_json_ws c = false -> skip_ws (c :: r) = c :: r.
Proof. intros H. cbn [skip_ws]. rewrite H. reflexivity. Qed.

Lemma parse_value_str n r :
  parse_value (S n) (34 :: r) = p ← parse_string r; Some (VStr p.1, p.2).
Proof. reflexivity. Qed.

Lemma parse_value_obj n r :
  parse_value (S n) (123 :: r) =
    match skip_ws r with
    | d :: r' => if d =? 125 then Some (VObj [], r') else parse_members n [] r
    | [] => None
    end.
Proof. reflexivity. Qed.

Lemma parse_value_arr n r :
  parse_value (S n) (91 :: r) =
    match skip_ws r with
    | d :: r' => if d =? 93 then Some (VArr [], r') else parse_elements n [] r
    | [] => None
    end.
Proof. reflexivity. Qed.

Lemma parse_members_key n acc r :
  parse_members (S n) acc (34 :: r) =
    k ← parse_string r;
    match skip_ws k.2 with
    | colon :: r2 =>
        if colon =? 58 then
          v ← parse_value n r2;
          let acc' := obj_set acc k.1 v.1 in
          match skip_ws v.2 with
          | d :: r4 =>
              if d =? 44 then parse_members n acc' r4
              else if d =? 125 then Some (VObj acc', r4)
              else None
          | [] => None
          end
        else None
    | [] => None
    end.
Proof. reflexivity. Qed.

Lemma parse_elements_S n acc s :
  parse_elements (S n) acc s =
    v ← parse_value n s;
    match skip_ws v.2 with
    | d :: r4 =>
        if d =? 44 then parse_elements n (acc ++ [v.1]) r4
        else if d =? 93 then Some (VArr (acc ++ [v.1]), r4)
        else None
    | [] => None
    end.
Proof. reflexivity. Qed.

(** The first unit of the text of a value. *)
Lemma stringify_head v :
  plain v ->
  exists c t, JSON_stringify v = c :: t /\ is_json_ws c = false /\ (c =? 93) = false.
Proof.
  destruct v as [ | [|] | t | s | xs | ps]; cbn [plain]; intros Hp;
    try (eexists; eexists; split; [reflexivity | split; reflexivity]).
  destruct Hp.
Qed.

Lemma stringify_length v : plain v -> (1 <= length (JSON_stringify v))%nat.
Proof.
  intros Hp. destruct (stringify_head v Hp) as (c & t & -> & _). cbn [length]. lia.
Qed.

Lemma elements_text_cons x xs :
  elements_text (x :: xs) =
    match xs with
    | [] => JSON_stringify x
    | _ => JSON_stringify x ++ 44 :: elements_text xs
    end.
Proof. destruct xs; reflexivity. Qed.

Lemma members_text_cons p ps :
  members_text (p :: ps) =
    match ps with
    | [] => QuoteJSONString (fst p) ++ 58 :: JSON_stringify (snd p)
    | _ => (QuoteJSONString (fst p) ++ 58 :: JSON_stringify (snd p))
             ++ 44 :: members_text ps
    end.
Proof. destruct ps; reflexivity. Qed.

Lemma elements_text_length x xs :
  length (elements_text (x :: xs)) =
    (length (JSON_stringify x)
     + match xs with [] => 0 | _ => 1 + length (elements_text xs) end)%nat.
Proof.
  rewrite elements_text_cons. destruct xs; [lia|].
  rewrite length_app. cbn [length]. lia.
Qed.

Lemma members_text_length p ps :
  length (members_text (p :: ps)) =
    (3 + length (quote_body (fst p)) + length (JSON_stringify (snd p))
     + match ps with [] => 0 | _ => 1 + length (members_text ps) end)%nat.
Proof.
  rewrite members_text_cons. unfold QuoteJSONString. destruct ps;
    repeat (rewrite length_app || cbn [length]); lia.
Qed.

Lemma parse_elements_text xs :
  Forall plain xs -> Forall reads_back xs -> xs <> [] ->
  forall fuel acc rest,
    (length (elements_text xs) < fuel)%nat ->
    parse_elements fuel acc (elements_text xs ++ 93 :: rest)
    = Some (VArr (acc ++ xs), rest).
Proof.
  intros Hp Hr. induction Hr as [|x xs Hx Hxs IH]; [congruence|]. intros _.
  inversion Hp as [|? ? Hpx Hpxs]; subst.
  intros fuel acc rest Hfuel. destruct fuel as [|n]; [lia|].
  rewrite elements_text_length in Hfuel.
  rewrite parse_elements_S, elements_text_cons.
  pose proof (stringify_length x Hpx) as Hlen.
  destruct xs as [|y ys].
  - rewrite Hx by lia. cbn [mbind option_bind fst snd].
    rewrite skip_ws_cons by reflexivity.
    change (93 =? 44) with false. change (93 =? 93) with true. reflexivity.
  - rewrite <- app_assoc. rewrite Hx by lia. cbn [mbind option_bind fst snd app].
    rewrite skip_ws_cons by reflexivity. change (44 =? 44) with true. cbv iota.
    rewrite IH; [|assumption|discriminate|lia].
    rewrite <- app_assoc. reflexivity.
Qed.

Lemma obj_get_In {A} (acc : list (jstring * A)) k v :
  obj_get acc k = Some v -> k ∈ map fst acc.
Proof.
  induction acc as [|[k0 v0] acc IH]; cbn [obj_get]; [discriminate|].
  cbn [map fst]. destruct (decide (k0 = k)) as [->|?]; [left | right; auto].
Qed.

Lemma parse_members_text ps :
  Forall (fun p => wf_string (fst p) /\ plain (snd p)) ps ->
  Forall (fun p => reads_back (snd p)) ps -> ps <> [] ->
  forall fuel acc rest,
    NoDup (map fst (acc ++ ps)) ->
    (length (members_text ps) < fuel)%nat ->
    parse_members fuel acc (members_text ps ++ 125 :: rest)
    = Some (VObj (acc ++ ps), rest).
Proof.
  intros Hp Hr. induction Hr as [|[k v] ps Hv Hps IH]; [congruence|]. intros _.
  inversion Hp as [|? ? [Hk Hpv] Hpps]; subst. cbn [fst snd] in *.
  intros fuel acc rest Hnd Hfuel. destruct fuel as [|n]; [lia|].
  pose proof (stringify_length v Hpv) as Hlen.
  rewrite members_text_length in Hfuel. cbn [fst snd] in Hfuel.
  assert (Hfresh : obj_set acc k v = acc ++ [(k, v)]).
  { apply obj_set_fresh. rewrite map_app in Hnd. cbn [map fst] in Hnd.
    apply NoDup_app in Hnd as (_ & Hdis & _).
    destruct (obj_get acc k) as [v0|] eqn:Hg; [exfalso|reflexivity].
    apply (Hdis k (obj_get_In acc k v0 Hg)). left. }
  rewrite members_text_cons. cbn [fst snd].
  destruct ps as [|q qs]; unfold QuoteJSONString.
  - repeat first [rewrite <- app_assoc | progress cbn [app]].
    rewrite parse_members_key, parse_string_quote_body by assumption.
    cbn [mbind option_bind fst snd]. rewrite skip_ws_cons by reflexivity.
    change (58 =? 58) with true. cbv iota.
    rewrite Hv by lia. cbn [mbind option_bind fst snd]. cbv zeta.
    rewrite skip_ws_cons by reflexivity.
    change (125 =? 44) with false. change (125 =? 125) with true. cbv iota.
    rewrite Hfresh. reflexivity.
  - repeat first [rewrite <- app_assoc | progress cbn [app]].
    rewrite parse_members_key, parse_string_quote_body by assumption.
    cbn [mbind option_bind fst snd]. rewrite skip_ws_cons by reflexivity.
    change (58 =? 58) with true. cbv iota.
    rewrite Hv by lia. cbn [mbind option_bind fst snd]. cbv zeta.
    rewrite skip_ws_cons by reflexivity.
    change (44 =? 44) with true. cbv iota.
    rewrite Hfresh. rewrite IH; [|assumption|discriminate| |lia].
    + rewrite <- app_assoc. reflexivity.
    + rewrite <- app_assoc. exact Hnd.
Qed.

Lemma stringify_str s : JSON_stringify (VStr s) = 34 :: quote_body s ++ [34].
Proof. reflexivity. Qed.

Lemma stringify_arr xs : JSON_stringify (VArr xs) = 91 :: elements_text xs ++ [93].
Proof. reflexivity. Qed.

Lemma stringify_obj ps : JSON_stringify (VObj ps) = 123 :: members_text ps ++ [125].
Proof. reflexivity. Qed.

(** [JSON.parse] reads back what [JSON.stringify] wrote. *)
Lemma parse_value_stringify v : plain v -> reads_back v.
Proof.
  induction v as [ | b | t | s | xs IH | ps IH] using value_ind';
    intros Hp fuel rest Hfuel.
  - destruct fuel; [vm_compute in Hfuel; lia | reflexivity].
  - destruct b; (destruct fuel; [vm_compute in Hfuel; lia | reflexivity]).
  - destruct Hp.
  - cbn [plain] in Hp. rewrite stringify_str in *.
    destruct fuel as [|n]; [cbn [length] in Hfuel; lia|]. cbn [app].
    rewrite <- app_assoc. cbn [app].
    rewrite parse_value_str, parse_string_quote_body by assumption. reflexivity.
  - apply plain_arr in Hp.
    assert (Hr : Forall reads_back xs).
    { clear -IH Hp. induction IH as [|x xs Hx _ IHxs]; [constructor|].
      inversion Hp; subst. constructor; auto. }
    rewrite stringify_arr in *.
    cbn [length] in Hfuel. rewrite length_app in Hfuel. cbn [length] in Hfuel.
    destruct fuel as [|n]; [lia|]. cbn [app]. rewrite <- app_assoc. cbn [app].
    rewrite parse_value_arr.
    destruct xs as [|x xs'].
    + cbn [elements_text join_commas map app]. rewrite skip_ws_cons by reflexivity.
      reflexivity.
    + assert (Hhead : exists c t, elements_text (x :: xs') = c :: t
                                  /\ is_json_ws c = false /\ (c =? 93) = false).
      { inversion Hp as [|? ? Hpx _]; subst.
        destruct (stringify_head x Hpx) as (c & t & Hc & Hws & H93).
        rewrite elements_text_cons, Hc. destruct xs'; eauto 10. }
      destruct Hhead as (c & t & Hc & Hws & H93).
      rewrite Hc at 1. cbn [app]. rewrite skip_ws_cons by assumption. rewrite H93.
      apply (parse_elements_text (x :: xs') Hp Hr); [discriminate | lia].
  - apply plain_obj in Hp as [Hnd Hp].
    assert (Hr : Forall (fun p => reads_back (snd p)) ps).
    { clear -IH Hp. induction IH as [|p ps Hx _ IHps]; [constructor|].
      inversion Hp as [|? ? [_ Hpp] ?]; subst. constructor; auto. }
    rewrite stringify_obj in *.
    cbn [length] in Hfuel. rewrite length_app in Hfuel. cbn [length] in Hfuel.
    destruct fuel as [|n]; [lia|]. cbn [app]. rewrite <- app_assoc. cbn [app].
    rewrite parse_value_obj.
    destruct ps as [|p ps'].
    + cbn [members_text join_commas map app]. rewrite skip_ws_cons by reflexivity.
      reflexivity.
    + assert (Hhead : exists t, members_text (p :: ps') = 34 :: t).
      { rewrite members_text_cons. unfold QuoteJSONString. destruct ps'; eauto. }
      destruct Hhead as (t & Ht).
      rewrite Ht at 1. cbn [app]. rewrite skip_ws_cons by reflexivity.
      change (34 =? 125) with false. cbv iota.
      apply (parse_members_text (p :: ps') Hp Hr); [discriminate | exact Hnd | lia].
Qed.

Lemma JSON_parse_stringify v : plain v -> JSON_parse (JSON_stringify v) = Some v.
Proof.
  intros Hp. unfold JSON_parse.
  pose proof (parse_value_stringify v Hp (S (length (JSON_stringify v))) []) as H.
  rewrite app_nil_r in H. rewrite H by lia. reflexivity.
Qed.

Lemma sealed_join_commas ts : Forall sealed ts -> sealed (join_commas ts).
Proof.
  induction 1 as [|t ts Ht Hts IH]; [apply sealed_nil|].
  cbn [join_commas]. destruct ts as [|u us]; [exact Ht|].
  apply sealed_app; [exact Ht|]. apply sealed_cons; [lia | exact IH].
Qed.

(** The text [JSON.stringify] writes has no lone surrogate, whatever the
    strings of the value. *)
Lemma sealed_stringify v : plain v -> sealed (JSON_stringify v).
Proof.
  induction v as [ | b | t | s | xs IH | ps IH] using value_ind'; intros Hp.
  - apply sealed_ascii. reflexivity.
  - destruct b; apply sealed_ascii; reflexivity.
  - destruct Hp.
  - apply sealed_QuoteJSONString, Hp.
  - apply plain_arr in Hp. rewrite stringify_arr.
    apply sealed_cons; [lia|]. apply sealed_app; [|apply sealed_unit; lia].
    apply sealed_join_commas. apply Forall_map.
    clear -IH Hp. induction IH as [|x xs Hx _ IHxs]; [constructor|].
    inversion Hp; subst. constructor; auto.
  - apply plain_obj in Hp as [_ Hp]. rewrite stringify_obj.
    apply sealed_cons; [lia|]. apply sealed_app; [|apply sealed_unit; lia].
    apply sealed_join_commas. apply Forall_map.
    clear -IH Hp. induction IH as [|p ps Hx _ IHps]; [constructor|].
    inversion Hp as [|? ? [Hk Hv] ?]; subst. constructor; [|auto].
    apply sealed_app; [apply sealed_QuoteJSONString, Hk|].
    apply sealed_cons; [lia | auto].
Qed.

(** The whole pipeline of [share] and [bootstrap] on a value. *)
Lemma decode_encode_value v :
  plain v ->
  exists token,
    (p ← encodeURIComponent (JSON_stringify v); btoa (unescape p)) = Some token
    /\ decode token = Some v.
Proof.
  intros Hp.
  destruct (sealed_well_formed _ (sealed_stringify v Hp)) as [Hwf Hw].
  destruct (unescape_encodeURIComponent _ Hwf Hw) as (p & Hp1 & Hp2).
  pose proof (utf8_octets_all _ _ eq_refl Hwf Hw) as Hoct.
  destruct (atob_btoa _ Hoct) as (token & Hb & Ha).
  exists token. rewrite Hp1. cbn [mbind option_bind]. rewrite Hp2. split; [exact Hb|].
  unfold decode. rewrite Ha. cbn [mbind option_bind].
  rewrite decodeURIComponent_escape_utf8 by assumption. cbn [mbind option_bind].
  apply JSON_parse_stringify, Hp.
Qed.

(** ** The codec: tracker states *)

Lemma wf_stringb_true s : wf_stringb s = true -> wf_string s.
Proof.
  unfold wf_stringb, wf_string. induction s as [|c s IH]; cbn [forallb]; intros H.
  - constructor.
  - apply andb_true_iff in H as [Hc Hs]. apply N.ltb_lt in Hc. constructor; auto.
Qed.

#[global] Instance step_id_inj : Inj (=) (=) step_id.
Proof.
  intros x y H. destruct x, y; try reflexivity; vm_compute in H; discriminate H.
Qed.

#[global] Instance role_id_inj : Inj (=) (=) role_id.
Proof.
  intros x y H. destruct x, y; try reflexivity; vm_compute in H; discriminate H.
Qed.

Lemma plain_reify_entry e :
  wf_stringb (ts e) && wf_stringb (what e) = true -> plain (reify_entry e).
Proof.
  intros H. apply andb_true_iff in H as [Ht Hw]. unfold reify_entry. apply plain_obj.
  split.
  - apply (bool_decide_unpack _). vm_compute. exact I.
  - repeat constructor; cbn [fst snd plain];
      first [ apply wf_stringb_true; first [assumption | reflexivity]
            | destruct (who e); apply wf_stringb_true; reflexivity ].
Qed.

Lemma plain_reify_completed c :
  NoDup (map fst c) -> forallb (fun p => wf_stringb (snd p)) c = true ->
  plain (reify_completed c).
Proof.
  intros Hnd Hc. unfold reify_completed. apply plain_obj. split.
  - replace (map fst (map (fun p : StepId * jstring => (step_id (fst p), VStr (snd p))) c))
      with (map step_id (map fst c)) by (rewrite !map_map; reflexivity).
    apply (NoDup_fmap_2 step_id), Hnd.
  - clear Hnd. induction c as [|[x t] c IH]; cbn [map]; [constructor|].
    cbn [forallb snd] in Hc. apply andb_true_iff in Hc as [Ht Hc].
    constructor; [|exact (IH Hc)]. cbn [fst snd plain]. split.
    + destruct x; apply wf_stringb_true; reflexivity.
    + apply wf_stringb_true, Ht.
Qed.

Lemma plain_reify_log l :
  forallb (fun e => wf_stringb (ts e) && wf_stringb (what e)) l = true ->
  Forall plain (map reify_entry l).
Proof.
  induction l as [|e l IH]; cbn [forallb map]; intros Hl; [constructor|].
  apply andb_true_iff in Hl as [He Hl].
  constructor; [apply plain_reify_entry, He | exact (IH Hl)].
Qed.

Lemma plain_reify s : valid_state s = true -> plain (reify s).
Proof.
  unfold valid_state. rewrite !andb_true_iff, bool_decide_eq_true.
  intros (((((((Hi & Hm) & Hn) & Hu) & Hb) & Hnd) & Hct) & Hlog).
  unfold reify. apply plain_obj. split.
  - apply (bool_decide_unpack _). vm_compute. exact I.
  - repeat (constructor; [cbn [fst snd]; split; [apply wf_stringb_true; reflexivity|]|]);
      [ cbn [plain]; apply wf_stringb_true; assumption ..
      | cbn [plain]; destruct (active s); apply wf_stringb_true; reflexivity
      | apply plain_reify_completed; assumption
      | apply plain_arr, plain_reify_log, Hlog
      | exact I
      | constructor ].
Qed.

Lemma valid_state_snap s : valid_state (snap s) = valid_state s.
Proof. reflexivity. Qed.

Lemma map_inj_eq {A B} (f : A -> B) (l l' : list A) :
  (forall x y, f x = f y -> x = y) -> map f l = map f l' -> l = l'.
Proof.
  intros Hf. revert l'. induction l as [|x l IH]; intros [|y l'] H;
    try discriminate H; [reflexivity|].
  cbn [map] in H. injection H as Hx Hl. f_equal; [apply Hf, Hx | apply IH, Hl].
Qed.

(** A state is determined by the object it is. *)
Lemma reify_inj s s' : reify s = reify s' -> s = s'.
Proof.
  destruct s as [i m n u b a c l ro], s' as [i' m' n' u' b' a' c' l' ro'].
  unfold reify, reify_completed. cbn [incidentId machineId machineName upn bu active
                                        completed log readonly].
  intros H. injection H as Hi Hm Hn Hu Hb Ha Hc Hl Hro.
  apply (inj step_id) in Ha.
  apply map_inj_eq in Hc; [|intros [x t] [y t'] Hxy; cbn [fst snd] in Hxy;
                             injection Hxy as Hx Ht; apply (inj step_id) in Hx;
                             congruence].
  apply map_inj_eq in Hl; [|intros [t w d] [t' w' d'] Hxy; unfold reify_entry in Hxy;
                             cbn [ts who what] in Hxy; injection Hxy as Ht Hw Hd;
                             apply (inj role_id) in Hw; congruence].
  congruence.
Qed.

(** C4. For every state whose strings are sequences of 16-bit code units
    and whose [completed] has no step twice, [share] makes a token, and
    what [bootstrap] decodes from that token is the object of the state
    with [readonly] set to [true], whatever [readonly] was; it is the object
    of no other state. Text fields may hold any Unicode text, and any other
    sequence of code units. *)
Theorem snapshot_round_trip (s : TrackerState) :
  valid_state s = true ->
  exists token,
    encode s = Some token
    /\ decode token = Some (reify (snap s))
    /\ readonly (snap s) = true
    /\ (forall f, field (snap s) f = field s f)
    /\ active (snap s) = active s
    /\ completed (snap s) = completed s
    /\ log (snap s) = log s
    /\ (forall s', decode token = Some (reify s') -> s' = snap s).
Proof.
  intros Hv.
  assert (Hp : plain (reify (snap s))) by (apply plain_reify; exact Hv).
  destruct (decode_encode_value _ Hp) as (token & He & Hd).
  exists token. split; [exact He|]. split; [exact Hd|].
  split; [reflexivity|]. split; [intros []; reflexivity|].
  split; [reflexivity|]. split; [reflexivity|]. split; [reflexivity|].
  intros s' Hd'. rewrite Hd in Hd'. symmetry. apply reify_inj.
  exact (f_equal (default VNull) Hd').
Qed.

Lemma snapshot_round_trip_witness :
  exists token,
    encode sample_state = Some token
    /\ decode token = Some (reify (snap sample_state)).
Proof.
  destruct (snapshot_round_trip sample_state eq_refl) as (token & He & Hd & _).
  exists token. split; assumption.
Defined.

(** * Further properties of the program *)

(** ** The persistence key *)

Lemma split_at_colon (i i' m m' : jstring) :
  58 ∉ i -> 58 ∉ i' -> i ++ 58 :: m = i' ++ 58 :: m' -> i = i' /\ m = m'.
Proof.
  revert i'. induction i as [|c i IH]; intros [|c' i'] Hi Hi' H; cbn [app] in H.
  - injection H as ->. split; reflexivity.
  - injection H as <- _. exfalso. apply Hi'. left.
  - injection H as -> _. exfalso. apply Hi. left.
  - injection H as -> H. apply not_elem_of_cons in Hi as [_ Hi].
    apply not_elem_of_cons in Hi' as [_ Hi'].
    destruct (IH i' Hi Hi' H) as [-> ->]. split; reflexivity.
Qed.

(** X1. Two pairs of identifiers have the same key only when they are the
    same pair, provided neither [incidentId] contains a colon. *)
Theorem toKey_injective_without_colon (i i' m m' : jstring) :
  58 ∉ i -> 58 ∉ i' -> toKey i m = toKey i' m' -> i = i' /\ m = m'.
Proof.
  intros Hi Hi' H. unfold toKey in H. apply app_inv_head in H.
  apply split_at_colon; assumption.
Qed.

Lemma toKey_injective_without_colon_witness :
  js "INC-42" = js "INC-42" /\ js "PC:7" = js "PC:7".
Proof.
  apply toKey_injective_without_colon; [| |reflexivity]; vm_compute; intros H;
    repeat (apply elem_of_cons in H as [H | H]; [discriminate H|]);
    apply elem_of_nil in H; exact H.
Defined.

Lemma toKey_shift_colon a b c : toKey (a ++ js ":" ++ b) c = toKey a (b ++ js ":" ++ c).
Proof. unfold toKey. rewrite <- !app_assoc. reflexivity. Qed.

(** X2. The key does not separate every two pairs: the pair
    [(a:b, c)] and the pair [(a, b:c)] have one key, so a state of the
    second, once persisted, replaces the record a state of the first had
    written. *)
Theorem colon_in_incidentId_shares_record (s1 s2 : TrackerState) (a b c : jstring)
    (store : gmap jstring jstring) :
  incidentId s1 = a ++ js ":" ++ b -> machineId s1 = c ->
  incidentId s2 = a -> machineId s2 = b ++ js ":" ++ c ->
  readonly s2 = false -> a <> [] ->
  key_of s1 = key_of s2
  /\ persist s2 (persist s1 store) !! key_of s1 = Some (JSON_stringify (reify s2)).
Proof.
  intros Hi1 Hm1 Hi2 Hm2 Hro Ha.
  assert (Hk : key_of s1 = key_of s2).
  { unfold key_of. rewrite Hi1, Hm1, Hi2, Hm2. apply toKey_shift_colon. }
  split; [exact Hk|]. rewrite Hk, (persist_spec s2). unfold persistable.
  rewrite Hro, Hi2, Hm2. destruct a as [|x a]; [congruence|].
  destruct b; cbn [negb andb nonempty app]; apply lookup_insert_eq.
Qed.

Lemma colon_in_incidentId_shares_record_witness :
  key_of (setField (setField sample_state FincidentId (js "INC:42")) FmachineId (js "7"))
  = key_of (setField (setField sample_state FincidentId (js "INC")) FmachineId (js "42:7")).
Proof.
  refine (proj1 (colon_in_incidentId_shares_record _ _ (js "INC") (js "42") (js "7") ∅
                   _ _ _ _ _ _)); try reflexivity.
  intros H. discriminate H.
Defined.

(** ** Progress along a session *)

Lemma role_step w e :
  role (step w e) = match e with SetRole r => r | _ => role w end.
Proof.
  unfold step. destruct e; unfold effects_of.
  - destruct (advance _ _ _).2; unfold commit; destruct (update_of _ _); reflexivity.
  - reflexivity.
  - unfold commit. destruct (update_of _ _); reflexivity.
  - unfold commit. destruct (update_of _ _); reflexivity.
  - destruct (share _ _ _); unfold commit; destruct (update_of _ _); reflexivity.
Qed.

Lemma position_range x : (0 <= position x <= 7)%Z.
Proof. destruct x; vm_compute; split; discriminate. Qed.

Lemma spec_gate_forward r a n : spec_gate r a = Some n -> (position a <= position n)%Z.
Proof.
  destruct r, a; cbn [spec_gate spec_successor]; intros H; try discriminate H;
    injection H as <-; vm_compute; discriminate.
Qed.

(** What an event other than a confirmed reset does to the progress. *)
Lemma step_progress w e :
  keeps_progress e = true ->
  let s := state w in
  let s' := state (step w e) in
  (position (active s) <= position (active s'))%Z
  /\ (exists added, log s' = log s ++ added
                    /\ (length added <= if is_advance e then 1 else 0)%nat)
  /\ readonly s' = readonly s.
Proof.
  intros He. cbv zeta. rewrite state_step.
  destruct e as [ts|f v|c now|r|o p]; unfold update_of.
  - unfold advance. rewrite nextFor_spec_gate.
    destruct (spec_gate (role w) (active (state w))) as [n|] eqn:Hg; cbn [fst].
    + unfold setActive. destruct (readonly (state w)) eqn:Hro;
        cbn [default from_option Datatypes.id active log readonly].
      * split; [lia|]. split; [exists []; rewrite app_nil_r; split; [reflexivity|cbn; lia]|].
        congruence.
      * split; [exact (spec_gate_forward _ _ _ Hg)|].
        split; [eexists; split; [reflexivity | cbn; lia]|]. congruence.
    + cbn [default from_option Datatypes.id]. split; [lia|].
      split; [exists []; rewrite app_nil_r; split; [reflexivity|cbn; lia]|]. reflexivity.
  - cbn [default from_option Datatypes.id setField active log readonly is_advance].
    split; [lia|]. split; [exists []; rewrite app_nil_r; split; [reflexivity|cbn; lia]|].
    reflexivity.
  - destruct c; [discriminate He|]. cbn [reset negb default from_option Datatypes.id is_advance].
    split; [lia|]. split; [exists []; rewrite app_nil_r; split; [reflexivity|cbn; lia]|].
    reflexivity.
  - cbn [default from_option Datatypes.id is_advance].
    split; [lia|]. split; [exists []; rewrite app_nil_r; split; [reflexivity|cbn; lia]|].
    reflexivity.
  - cbn [default from_option Datatypes.id is_advance].
    split; [lia|]. split; [exists []; rewrite app_nil_r; split; [reflexivity|cbn; lia]|].
    reflexivity.
Qed.

Lemma run_progress es : forall w,
  forallb keeps_progress es = true ->
  (position (active (state w)) <= position (active (state (run w es))))%Z
  /\ (exists added, log (state (run w es)) = log (state w) ++ added
                    /\ (length added <= length (filter (fun e => is_advance e = true) es))%nat)
  /\ readonly (state (run w es)) = readonly (state w).
Proof.
  induction es as [|e es IH]; intros w Hes.
  - split; [reflexivity|]. split; [|reflexivity].
    exists []. rewrite app_nil_r. split; [reflexivity | cbn; lia].
  - cbn [forallb] in Hes. apply andb_true_iff in Hes as [He Hes].
    destruct (step_progress w e He) as (Hpos & (a1 & Hl1 & Hn1) & Hro).
    destruct (IH (step w e) Hes) as (Hpos' & (a2 & Hl2 & Hn2) & Hro').
    unfold run in *. cbn [foldl]. split; [lia|]. split; [|congruence].
    exists (a1 ++ a2). rewrite Hl2, Hl1, <- app_assoc. split; [reflexivity|].
    rewrite length_app. destruct (is_advance e) eqn:Hadv.
    + rewrite filter_cons_True by assumption. cbn [length]. lia.
    + rewrite filter_cons_False by congruence. lia.
Qed.

(** X3. Along every sequence of events without a confirmed reset, the
    active step never moves to an earlier step of the catalog; in
    particular a flow that has reached [done] stays at [done], whatever the
    roles. *)
Theorem active_never_moves_back (w : World) (es : list Event) :
  forallb keeps_progress es = true ->
  (position (active (state w)) <= position (active (state (run w es))))%Z
  /\ (active (state w) = done -> active (state (run w es)) = done).
Proof.
  intros Hes. destruct (run_progress es w Hes) as (Hpos & _).
  split; [exact Hpos|]. intros Hd. rewrite Hd in Hpos.
  destruct (active (state (run w es))); vm_compute in Hpos; try reflexivity;
    exfalso; apply Hpos; reflexivity.
Qed.

Lemma active_never_moves_back_witness :
  (position (active (state sample_world))
   <= position (active (state (run sample_world
        [SetRole hob; Advance t3; SetRole it; Advance t3; Reset false t3]))))%Z.
Proof.
  exact (proj1 (active_never_moves_back sample_world
                  [SetRole hob; Advance t3; SetRole it; Advance t3; Reset false t3]
                  eq_refl)).
Defined.

(** X4. Along every sequence of events without a confirmed reset the log
    only grows at its end: the log before is a prefix of the log after, and
    at most one entry is added per [advance]; edits of context fields,
    changes of role and shares add none. *)
Theorem log_is_append_only (w : World) (es : list Event) :
  forallb keeps_progress es = true ->
  exists added,
    log (state (run w es)) = log (state w) ++ added
    /\ (length added <= length (filter (fun e => is_advance e = true) es))%nat.
Proof.
  intros Hes. destruct (run_progress es w Hes) as (_ & Hlog & _). exact Hlog.
Qed.

Lemma log_is_append_only_witness :
  exists added,
    log (state (run sample_world [Advance t3; SetField Fupn []; Advance t3]))
    = log sample_state ++ added
    /\ (length added <= 2)%nat.
Proof.
  exact (log_is_append_only sample_world [Advance t3; SetField Fupn []; Advance t3]
           eq_refl).
Defined.

Lemma state_run_advances tss : forall w,
  state (run w (map Advance tss)) = foldl (advance_state (role w)) (state w) tss
  /\ role (run w (map Advance tss)) = role w.
Proof.
  induction tss as [|ts tss IH]; intros w; [split; reflexivity|].
  unfold run in *. cbn [map foldl]. destruct (IH (step w (Advance ts))) as [Hs Hr].
  rewrite Hs, Hr, role_step, state_step. split; reflexivity.
Qed.

Lemma operator_advance_position s ts :
  readonly s = false ->
  let s' := advance_state operator s ts in
  position (active s') = Z.min 7 (position (active s) + 1)
  /\ readonly s' = false
  /\ length (log s') = (length (log s) + if decide (active s = done) then 0 else 1)%nat.
Proof.
  intros Hro. cbv zeta. unfold advance_state.
  destruct (spec_gate operator (active s)) as [n|] eqn:Hg.
  - rewrite (advance_permitted s operator ts n Hro Hg).
    cbn [fst default from_option Datatypes.id active readonly log].
    rewrite length_app. cbn [length].
    destruct (active s); cbn [spec_gate spec_successor] in Hg; try discriminate Hg;
      injection Hg as <-; (split; [reflexivity | split; [reflexivity|]]);
      (destruct (decide _) as [Hd|_]; [discriminate Hd | reflexivity]).
  - rewrite (advance_denied s operator ts Hg).
    cbn [fst default from_option Datatypes.id].
    destruct (active s); cbn [spec_gate spec_successor] in Hg; try discriminate Hg.
    split; [reflexivity|]. split; [exact Hro|].
    destruct (decide _) as [_|Hd]; [lia | congruence].
Qed.

(** X5. An operator who presses advance [k] times in a session that is not
    read-only moves the flow [k] steps forward in the catalog, stopping at
    [done], and the log gets one entry for every step moved. *)
Theorem operator_advances_linearly (w : World) (tss : list jstring) :
  readonly (state w) = false -> role w = operator ->
  let w' := run w (map Advance tss) in
  position (active (state w'))
  = Z.min 7 (position (active (state w)) + Z.of_nat (length tss))
  /\ Z.of_nat (length (log (state w')))
     = (Z.of_nat (length (log (state w)))
        + (position (active (state w')) - position (active (state w))))%Z.
Proof.
  intros Hro Hr. cbv zeta. destruct (state_run_advances tss w) as [-> _]. rewrite Hr.
  generalize dependent (state w). clear w Hr.
  induction tss as [|ts tss IH]; intros s Hro.
  - cbn [foldl length]. pose proof (position_range (active s)). lia.
  - cbn [foldl length].
    destruct (operator_advance_position s ts Hro) as (Hp & Hro' & Hl).
    destruct (IH _ Hro') as [IHp IHl]. rewrite IHp, IHl, Hp.
    pose proof (position_range (active s)) as Hrange.
    assert (Hlen : Z.of_nat (length (log (advance_state operator s ts)))
                   = (Z.of_nat (length (log s))
                      + (Z.min 7 (position (active s) + 1) - position (active s)))%Z).
    { rewrite Hl. destruct (decide (active s = done)) as [Hd|Hd].
      - assert (position (active s) = 7)%Z by (rewrite Hd; reflexivity). lia.
      - assert (position (active s) <> 7)%Z
          by (destruct (active s); vm_compute; congruence).
        lia. }
    lia.
Qed.

Lemma operator_advances_linearly_witness :
  position (active (state (run sample_world (map Advance [t3; t3; t3; t3; t3; t3; t3]))))
  = 7%Z.
Proof.
  exact (proj1 (operator_advances_linearly sample_world [t3; t3; t3; t3; t3; t3; t3]
                  eq_refl eq_refl)).
Defined.

(** X6. A fresh tracker that is not read-only, advanced seven times by the
    operator, ends at [done] with a timestamp for each of the eight steps,
    in the order of the catalog, and a log of eight entries: the creation
    and the seven advances. *)
Theorem seven_advances_complete_the_flow (url : Location)
    (store : gmap jstring jstring) (now a1 a2 a3 a4 a5 a6 a7 : jstring) (w : World) :
  mount url store now = Some w -> readonly (state w) = false ->
  let s := state (run w (map Advance [a1; a2; a3; a4; a5; a6; a7])) in
  active s = done
  /\ completed s = [(started, now); (validated, a1); (it_sent, a2); (it_ok, a3);
                    (hob_sent, a4); (hob_ok, a5); (unisolate, a6); (done, a7)]
  /\ map who (log s) = [operator; operator; operator; operator;
                        operator; operator; operator; operator]
  /\ map ts (log s) = [now; a1; a2; a3; a4; a5; a6; a7].
Proof.
  intros Hm Hro. cbv zeta.
  destruct (state_run_advances [a1; a2; a3; a4; a5; a6; a7] w) as [-> _].
  unfold mount in Hm. destruct (initial (bootstrap url store) now) as [s0|] eqn:Hi;
    [|discriminate Hm]. cbn [mbind option_bind] in Hm. injection Hm as <-.
  cbn [state role] in *.
  destruct (initial_shape _ _ _ Hi) as (Ha & Hc & Hl & _).
  destruct s0 as [i m n u b a c l ro]. cbn [active completed log readonly] in *.
  subst a c l ro. vm_compute. repeat split; reflexivity.
Qed.

Lemma seven_advances_complete_the_flow_witness :
  exists w,
    mount (mkLocation [] []) ∅ t0 = Some w
    /\ active (state (run w (map Advance [t1; t1; t1; t1; t1; t1; t1]))) = done.
Proof.
  eexists. split; [vm_compute; reflexivity|].
  refine (proj1 (seven_advances_complete_the_flow (mkLocation [] []) ∅
                   t0 t1 t1 t1 t1 t1 t1 t1 _ _ _)); reflexivity.
Defined.

(** ** Context edits *)

Lemma step_context_only w e :
  context_only e = true ->
  active (state (step w e)) = active (state w)
  /\ completed (state (step w e)) = completed (state w)
  /\ log (state (step w e)) = log (state w)
  /\ readonly (state (step w e)) = readonly (state w).
Proof.
  intros He. rewrite state_step. destruct e; try discriminate He; unfold update_of;
    cbn [default from_option Datatypes.id]; repeat split; reflexivity.
Qed.

(** X7. Edits of context fields, changes of role and shares, in any number
    and order, leave the progress as it was: the active step, the
    timestamps, the log and [readonly]; and an edit that writes a field's
    current value leaves the whole state as it was. *)
Theorem context_edits_keep_progress (w : World) (es : list Event) :
  forallb context_only es = true ->
  active (state (run w es)) = active (state w)
  /\ completed (state (run w es)) = completed (state w)
  /\ log (state (run w es)) = log (state w)
  /\ readonly (state (run w es)) = readonly (state w)
  /\ forall f, state (step w (SetField f (field (state w) f))) = state w.
Proof.
  intros Hes.
  assert (H : active (state (run w es)) = active (state w)
              /\ completed (state (run w es)) = completed (state w)
              /\ log (state (run w es)) = log (state w)
              /\ readonly (state (run w es)) = readonly (state w)).
  { revert w. induction es as [|e es IH]; intros w; [repeat split; reflexivity|].
    cbn [forallb] in Hes. apply andb_true_iff in Hes as [He Hes].
    destruct (step_context_only w e He) as (H1 & H2 & H3 & H4).
    destruct (IH Hes (step w e)) as (I1 & I2 & I3 & I4).
    unfold run in *. cbn [foldl]. repeat split; congruence. }
  destruct H as (H1 & H2 & H3 & H4). repeat (split; [assumption|]).
  intros f. rewrite state_step. unfold update_of. cbn [default from_option Datatypes.id].
  destruct (state w), f; reflexivity.
Qed.

Lemma context_edits_keep_progress_witness :
  log (state (run sample_world [SetField Fbu (js "Ops"); SetRole hob; SetField Fupn []]))
  = log sample_state.
Proof.
  pose proof (context_edits_keep_progress sample_world
                [SetField Fbu (js "Ops"); SetRole hob; SetField Fupn []] eq_refl)
    as (_ & _ & H & _).
  exact H.
Defined.

(** ** The stepper *)

Lemma activeIdx_position s : activeIdx s = position (active s).
Proof. unfold activeIdx, position. destruct (active s); reflexivity. Qed.

(** X8. In every state the stepper shows exactly one step as current, the
    active one; the steps before it in the catalog as done and the steps
    after it as pending. *)
Theorem stepper_has_one_current_step (s : TrackerState) :
  length (filter (fun x => x = status_current) (statuses s)) = 1%nat
  /\ statuses s !! Z.to_nat (position (active s)) = Some status_current
  /\ forall (i : nat) x, statuses s !! i = Some x ->
       x = if (Z.of_nat i <? position (active s))%Z then status_done
           else if (Z.of_nat i =? position (active s))%Z then status_current
           else status_pending.
Proof.
  unfold statuses, status. rewrite activeIdx_position.
  split; [|split].
  - destruct (active s); vm_compute; reflexivity.
  - destruct (active s); vm_compute; reflexivity.
  - intros i x Hx. apply list_lookup_imap_Some in Hx as (y & _ & ->). reflexivity.
Qed.

(** ** Loading *)

Lemma initial_reify s now :
  initial (reify s) now = Some (fresh s now (js "Tracker created") (readonly s)).
Proof. destruct s as [i m n u b a c l ro]. vm_compute. reflexivity. Qed.

Lemma strip_state_token t : strip_state (js "#state=" ++ t) = t.
Proof. vm_compute. reflexivity. Qed.

Lemma decode_empty : decode [] = None.
Proof. vm_compute. reflexivity. Qed.

Lemma bootstrap_token url store v :
  decode (strip_state (hash url)) = Some v -> bootstrap url store = v.
Proof.
  intros Hd. unfold bootstrap.
  destruct (strip_state (hash url)) as [|c t] eqn:Hs.
  - rewrite decode_empty in Hd. discriminate Hd.
  - cbn [nonempty]. rewrite Hd. reflexivity.
Qed.

(** X9. What the effect wrote is found again, and the load then starts the
    flow anew: when the page is opened with the [incidentId] and [machineId]
    of a persisted state in the query and no decodable token, [bootstrap]
    returns the stored record, the first render has the context fields of
    that state with the flow back at [started], and the first run of the
    effect replaces the stored record by this fresh state. *)
Theorem reload_restores_context_and_restarts (s : TrackerState) (url : Location)
    (store : gmap jstring jstring) (now : jstring) :
  valid_state s = true -> persistable s = true ->
  decode (strip_state (hash url)) = None ->
  param url (js "incidentId") = incidentId s ->
  param url (js "machineId") = machineId s ->
  bootstrap url (persist s store) = reify s
  /\ exists w,
       mount url (persist s store) now = Some w
       /\ state w = fresh s now (js "Tracker created") false
       /\ localStorage w !! key_of s
          = Some (JSON_stringify (reify (fresh s now (js "Tracker created") false))).
Proof.
  intros Hv Hp Hd Hi Hm.
  assert (Hro : readonly s = false).
  { unfold persistable in Hp. destruct (readonly s); [discriminate Hp | reflexivity]. }
  assert (Hb : bootstrap url (persist s store) = reify s).
  { rewrite (bootstrap_after_failed_token _ _ Hd). cbv zeta. rewrite Hi, Hm.
    rewrite persist_spec, Hp. unfold key_of. rewrite lookup_insert_eq.
    cbn [mbind option_bind]. rewrite JSON_parse_stringify by (apply plain_reify, Hv).
    reflexivity. }
  split; [exact Hb|]. unfold mount. rewrite Hb, initial_reify, Hro.
  cbn [mbind option_bind]. eexists. split; [reflexivity|].
  cbn [state localStorage]. split; [reflexivity|].
  rewrite (persist_spec (fresh _ _ _ _)).
  replace (persistable (fresh s now (js "Tracker created") false)) with (persistable s)
    by (unfold persistable; rewrite Hro; reflexivity).
  rewrite Hp. apply lookup_insert_eq.
Qed.

Lemma reload_restores_context_and_restarts_witness :
  bootstrap (mkLocation [] [(js "machineId", js "PC-7"); (js "incidentId", js "INC-42")])
            (persist sample_state ∅)
  = reify sample_state.
Proof.
  refine (proj1 (reload_restores_context_and_restarts sample_state
                   (mkLocation [] [(js "machineId", js "PC-7"); (js "incidentId", js "INC-42")])
                   ∅ t3 _ _ _ _ _)); vm_compute; reflexivity.
Defined.

(** X10. A token made by [share] takes precedence over the query and the
    cache and opens a read-only session: whatever the query parameters and
    the store, the first render has the context fields of the shared state,
    [readonly] set, the flow at [started], and the store is left as it was. *)
Theorem shared_link_opens_read_only (s : TrackerState) :
  valid_state s = true ->
  exists token,
    encode s = Some token
    /\ forall params store now,
         mount (mkLocation (js "#state=" ++ token) params) store now
         = Some {| state := fresh s now (js "Tracker created") true;
                   role := operator; localStorage := store;
                   alerts := []; clipboard := None |}.
Proof.
  intros Hv.
  assert (Hp : plain (reify (snap s))) by (apply plain_reify; exact Hv).
  destruct (decode_encode_value _ Hp) as (token & He & Hd).
  exists token. split; [exact He|]. intros params store now. unfold mount.
  rewrite (bootstrap_token _ _ (reify (snap s)))
    by (cbn [hash]; rewrite strip_state_token; exact Hd).
  rewrite initial_reify. reflexivity.
Qed.

Lemma shared_link_opens_read_only_witness :
  exists token,
    encode sample_state = Some token
    /\ readonly <$> (state <$> mount (mkLocation (js "#state=" ++ token) [])
                                  (localStorage sample_world) t3)
       = Some true.
Proof.
  destruct (shared_link_opens_read_only sample_state eq_refl) as (token & He & Hm).
  exists token. split; [exact He|]. rewrite Hm. reflexivity.
Defined.

(** X11. A token whose payload is the JSON text [null] decodes, so
    [bootstrap] returns [null], and [initial] then throws on its first
    property read: the page does not load, whatever the query and store. *)
Theorem null_snapshot_breaks_load (url : Location) (store : gmap jstring jstring)
    (now : jstring) :
  decode (strip_state (hash url)) = Some VNull ->
  bootstrap url store = VNull /\ mount url store now = None.
Proof.
  intros Hd. pose proof (bootstrap_token url store VNull Hd) as Hb.
  split; [exact Hb|]. unfold mount. rewrite Hb. reflexivity.
Qed.

Lemma null_snapshot_breaks_load_witness :
  mount (mkLocation (js "#state=bnVsbA==") [(js "incidentId", js "INC-42")])
        (localStorage sample_world) t3
  = None.
Proof.
  refine (proj2 (null_snapshot_breaks_load _ _ _ _)). vm_compute. reflexivity.
Defined.

(** ** Writing *)

Lemma step_readonly_store w e :
  keeps_progress e = true -> readonly (state w) = true ->
  localStorage (step w e) = localStorage w.
Proof.
  intros He Hro. rewrite localStorage_step.
  destruct (update_of w e) as [s'|] eqn:Hu; [|reflexivity].
  destruct (step_progress w e He) as (_ & _ & Hro'). rewrite state_step, Hu in Hro'.
  cbn [default from_option Datatypes.id] in Hro'. rewrite persist_spec. unfold persistable.
  rewrite Hro', Hro. reflexivity.
Qed.

(** X12. A read-only session never writes to the local store: along every
    sequence of events without a confirmed reset (advances, edits of
    context fields included) the store stays as it was and the session
    stays read-only. *)
Theorem readonly_session_never_writes (w : World) (es : list Event) :
  readonly (state w) = true -> forallb keeps_progress es = true ->
  localStorage (run w es) = localStorage w
  /\ readonly (state (run w es)) = true.
Proof.
  intros Hro Hes. revert w Hro. induction es as [|e es IH]; intros w Hro.
  - split; [reflexivity | exact Hro].
  - cbn [forallb] in Hes. apply andb_true_iff in Hes as [He Hes].
    destruct (step_progress w e He) as (_ & _ & Hro').
    destruct (IH Hes (step w e)) as [Hst Hr]; [congruence|].
    unfold run in *. cbn [foldl]. rewrite Hst, Hr.
    split; [apply step_readonly_store; assumption | reflexivity].
Qed.

Lemma readonly_session_never_writes_witness :
  localStorage (run readonly_world
                  [SetField FincidentId (js "INC-43"); SetRole operator; Advance t3])
  = ∅.
Proof.
  exact (proj1 (readonly_session_never_writes readonly_world
                  [SetField FincidentId (js "INC-43"); SetRole operator; Advance t3]
                  eq_refl eq_refl)).
Defined.

(** X13. A confirmed reset writes, also in a read-only session: when both
    identifiers are non-empty, the record under the key of the state is
    replaced by the fresh state, whatever [readonly] was and whatever the
    store held. *)
Theorem confirmed_reset_replaces_record (w : World) (now : jstring) :
  nonempty (incidentId (state w)) && nonempty (machineId (state w)) = true ->
  localStorage (step w (Reset true now))
  = <[key_of (state w) :=
        JSON_stringify (reify (fresh (state w) now (js "Tracker reset") false))]>
      (localStorage w).
Proof.
  intros Hne. rewrite localStorage_step. unfold update_of, reset. cbn [negb].
  fold (fresh (state w) now (js "Tracker reset") false).
  rewrite persist_spec. unfold persistable.
  cbn [fresh readonly incidentId machineId negb andb]. rewrite Hne. reflexivity.
Qed.

Lemma confirmed_reset_replaces_record_witness :
  localStorage (step (mkWorld (snap sample_state) it (localStorage sample_world) [] None)
                  (Reset true t3)) !! key_of sample_state
  = Some (JSON_stringify (reify (fresh sample_state t3 (js "Tracker reset") false))).
Proof.
  rewrite (confirmed_reset_replaces_record
             (mkWorld (snap sample_state) it (localStorage sample_world) [] None) t3 eq_refl).
  apply lookup_insert_eq.
Defined.

(** ** Sharing *)

Lemma fmap_is_Some {A B} (f : A -> B) (o : option A) : is_Some (f <$> o) <-> is_Some o.
Proof. destruct o; cbn; split; intros [x H]; try discriminate H; eexists; reflexivity. Qed.

(** [encodeURIComponent] throws exactly on a string with a lone surrogate. *)
Lemma encodeURIComponent_is_Some s :
  is_Some (encodeURIComponent s) <-> well_formed s = true.
Proof.
  induction s as [s IH] using (induction_ltof1 _ (@length N)).
  unfold ltof in IH. destruct s as [|c r]; [split; [reflexivity | eexists; reflexivity]|].
  cbn [encodeURIComponent well_formed].
  destruct (uri_unreserved c) eqn:Hu.
  - destruct (uri_unreserved_ascii c Hu) as [Hlt _].
    assert (Hh : is_high c = false) by (unfold is_high, between; cases_N; reflexivity).
    assert (Hl : is_low c = false) by (unfold is_low, between; cases_N; reflexivity).
    rewrite Hh, Hl, fmap_is_Some. apply IH. cbn [length]. lia.
  - destruct (is_low c) eqn:Hl.
    + assert (Hh : is_high c = false).
      { unfold is_high, is_low, between in *. revert Hl. cases_N; cbn [andb]; congruence. }
      rewrite Hh. split; [intros [x H]; discriminate H | discriminate].
    + destruct (is_high c).
      * destruct r as [|d r']; [split; [intros [x H]; discriminate H | discriminate]|].
        destruct (is_low d); cbn [andb].
        -- rewrite fmap_is_Some. apply IH. cbn [length]. lia.
        -- split; [intros [x H]; discriminate H | discriminate].
      * rewrite fmap_is_Some. apply IH. cbn [length]. lia.
Qed.

Lemma encode_is_Some s : valid_state s = true -> is_Some (encode s).
Proof.
  intros Hv.
  assert (Hp : plain (reify (snap s))) by (apply plain_reify; exact Hv).
  destruct (decode_encode_value _ Hp) as (token & He & _). exists token. exact He.
Qed.

(** X14. [share] fails exactly when [incidentId] or [machineId] holds a
    lone surrogate (the token itself can always be made): then
    [encodeURIComponent] throws, and the event leaves the state, the store,
    the clipboard and the messages as they were. *)
Theorem share_fails_on_lone_surrogate (w : World) (origin pathname : jstring) :
  valid_state (state w) = true ->
  (share (state w) origin pathname = None
   <-> well_formed (incidentId (state w)) && well_formed (machineId (state w)) = false)
  /\ (share (state w) origin pathname = None -> step w (Share origin pathname) = w).
Proof.
  intros Hv. destruct (encode_is_Some _ Hv) as [token He]. split.
  - unfold share. rewrite He. cbn [mbind option_bind].
    pose proof (encodeURIComponent_is_Some (incidentId (state w))) as Hi.
    pose proof (encodeURIComponent_is_Some (machineId (state w))) as Hm.
    destruct (encodeURIComponent (incidentId (state w))) as [i|];
      destruct (encodeURIComponent (machineId (state w))) as [m|];
      cbn [mbind option_bind];
      destruct (well_formed (incidentId (state w)));
      destruct (well_formed (machineId (state w))); cbn [andb];
      split; intros H; try reflexivity; try discriminate H; exfalso.
    all: first [ destruct (proj2 Hi eq_refl) as [x Hx]; discriminate Hx
               | destruct (proj2 Hm eq_refl) as [x Hx]; discriminate Hx
               | discriminate (proj1 Hi (ex_intro _ _ eq_refl))
               | discriminate (proj1 Hm (ex_intro _ _ eq_refl)) ].
  - intros Hs. unfold step, update_of, effects_of. rewrite Hs. reflexivity.
Qed.

Lemma share_fails_on_lone_surrogate_witness :
  step (mkWorld (setField sample_state FmachineId [80; 67; 56832]) operator ∅ [] None)
       (Share (js "https://x.example") (js "/"))
  = mkWorld (setField sample_state FmachineId [80; 67; 56832]) operator ∅ [] None.
Proof.
  destruct (share_fails_on_lone_surrogate
              (mkWorld (setField sample_state FmachineId [80; 67; 56832]) operator ∅ [] None)
              (js "https://x.example") (js "/") eq_refl) as [Hiff Hstep].
  apply Hstep, Hiff. vm_compute. reflexivity.
Defined.

Lemma hex_digit_upper_safe d : d < 16 -> uri_safe (hex_digit true d) = true.
Proof.
  intros Hd.
  assert (H : (fun d => uri_safe (hex_digit true d)) d = true)
    by (by_cases_below 16%nat d Hd).
  exact H.
Qed.

Lemma pct_octets_safe bs : octets bs -> forallb uri_safe (pct_octets bs) = true.
Proof.
  induction 1 as [|b bs Hb _ IH]; [reflexivity|].
  unfold pct_octets in *. cbn [flat_map pct app forallb]. rewrite IH.
  rewrite !hex_digit_upper_safe by lia. reflexivity.
Qed.

Lemma encodeURIComponent_safe s p :
  wf_string s -> encodeURIComponent s = Some p -> forallb uri_safe p = true.
Proof.
  intros Hs. revert p. induction s as [s IH] using (induction_ltof1 _ (@length N)).
  unfold ltof in IH. destruct s as [|c r]; intros p Hp.
  { injection Hp as <-. reflexivity. }
  inversion Hs as [|? ? Hc Hr]; subst. cbn [encodeURIComponent] in Hp.
  destruct (uri_unreserved c) eqn:Hu.
  - destruct (encodeURIComponent r) as [q|] eqn:Hq; [|discriminate Hp].
    injection Hp as <-. cbn [forallb]. unfold uri_safe at 1. rewrite Hu.
    apply (IH r); [cbn [length]; lia | assumption | assumption].
  - destruct (is_low c); [discriminate Hp|]. destruct (is_high c) eqn:Hh.
    + destruct r as [|d r']; [discriminate Hp|].
      destruct (is_low d) eqn:Hl; [|discriminate Hp]. inversion Hr; subst.
      destruct (encodeURIComponent r') as [q|] eqn:Hq; [|discriminate Hp].
      injection Hp as <-. rewrite forallb_app. apply andb_true_iff. split.
      * apply pct_octets_safe, utf8_octets_octets.
        pose proof (pair_cp_range c d Hh Hl). lia.
      * apply (IH r'); [cbn [length]; lia | assumption | assumption].
    + destruct (encodeURIComponent r) as [q|] eqn:Hq; [|discriminate Hp].
      injection Hp as <-. rewrite forallb_app. apply andb_true_iff. split.
      * apply pct_octets_safe, utf8_octets_octets. lia.
      * apply (IH r); [cbn [length]; lia | assumption | assumption].
Qed.

Lemma b64_char_unit i : i < 64 -> b64_unit (b64_char i) = true.
Proof.
  intros Hi. unfold b64_unit. rewrite b64_index_char by assumption. reflexivity.
Qed.

Lemma b64_encode_units bs : octets bs -> forallb b64_unit (b64_encode bs) = true.
Proof.
  induction bs as [|a|a b|a b c r IH] using list_ind3; intros Hbs.
  - reflexivity.
  - inversion Hbs; subst. cbn [b64_encode forallb].
    rewrite !b64_char_unit by lia. reflexivity.
  - inversion Hbs as [|? ? Ha Hbs']; subst. inversion Hbs'; subst.
    cbn [b64_encode forallb]. rewrite !b64_char_unit by lia. reflexivity.
  - inversion Hbs as [|? ? Ha Hbs1]; subst. inversion Hbs1 as [|? ? Hb Hbs2]; subst.
    inversion Hbs2 as [|? ? Hc Hr]; subst.
    cbn [b64_encode forallb]. rewrite !b64_char_unit by lia. rewrite (IH Hr). reflexivity.
Qed.

Lemma forallb_octets bs : forallb (fun c => c <? 256) bs = true -> octets bs.
Proof.
  induction bs as [|b bs IH]; cbn [forallb]; intros H; [constructor|].
  apply andb_true_iff in H as [Hb Hbs]. apply N.ltb_lt in Hb.
  constructor; [exact Hb | exact (IH Hbs)].
Qed.

Lemma btoa_units s t :
  btoa s = Some t -> forallb b64_unit t = true /\ (length t mod 4 = 0)%nat.
Proof.
  unfold btoa. destruct (forallb _ s) eqn:Hs; [|discriminate].
  intros [= <-]. apply forallb_octets in Hs. split.
  - apply b64_encode_units, Hs.
  - rewrite b64_encode_body_pad. apply b64_body_length.
Qed.

Lemma valid_state_ids s :
  valid_state s = true -> wf_string (incidentId s) /\ wf_string (machineId s).
Proof.
  unfold valid_state. rewrite !andb_true_iff.
  intros (((((((Hi & Hm) & _) & _) & _) & _) & _) & _).
  split; apply wf_stringb_true; assumption.
Qed.

(** X15. The link [share] copies has the shape
    [origin pathname ?incidentId= i &machineId= m #state= token]: the token
    is the one that decodes to the read-only snapshot, it is not empty, its
    length is a multiple of four and its units are base64 letters, digits,
    [+], [/] and [=]; [i] and [m] hold only unreserved URI characters and
    [%], so neither can contain [&], [=] or [#]. *)
Theorem share_link_shape (s : TrackerState) (origin pathname url : jstring) :
  valid_state s = true ->
  share s origin pathname = Some url ->
  exists token i m,
    url = origin ++ pathname ++ js "?incidentId=" ++ i ++ js "&machineId=" ++ m
            ++ js "#state=" ++ token
    /\ decode token = Some (reify (snap s))
    /\ token <> []
    /\ (length token mod 4 = 0)%nat
    /\ forallb b64_unit token = true
    /\ forallb uri_safe i = true
    /\ forallb uri_safe m = true.
Proof.
  intros Hv Hs.
  assert (Hp : plain (reify (snap s))) by (apply plain_reify; exact Hv).
  destruct (decode_encode_value _ Hp) as (token & He & Hd).
  destruct (valid_state_ids s Hv) as [Hwi Hwm].
  unfold share in Hs. unfold encode in Hs at 1. rewrite He in Hs.
  cbn [mbind option_bind] in Hs.
  destruct (encodeURIComponent (incidentId s)) as [i|] eqn:Hi; [|discriminate Hs].
  destruct (encodeURIComponent (machineId s)) as [m|] eqn:Hm; [|discriminate Hs].
  cbn [mbind option_bind] in Hs. injection Hs as <-.
  exists token, i, m. split; [reflexivity|]. split; [exact Hd|].
  split; [intros ->; rewrite decode_empty in Hd; discriminate Hd|].
  destruct (encodeURIComponent (JSON_stringify (reify (snap s)))) as [p|];
    [|discriminate He]. cbn [mbind option_bind] in He.
  destruct (btoa_units _ _ He) as [Hu Hl].
  split; [exact Hl|]. split; [exact Hu|].
  split; [exact (encodeURIComponent_safe _ _ Hwi Hi) | exact (encodeURIComponent_safe _ _ Hwm Hm)].
Qed.

Lemma share_link_shape_witness :
  exists url token i m,
    share sample_state (js "https://x.example") (js "/") = Some url
    /\ url = js "https://x.example" ++ js "/" ++ js "?incidentId=" ++ i
               ++ js "&machineId=" ++ m ++ js "#state=" ++ token
    /\ forallb b64_unit token = true.
Proof.
  destruct (share sample_state (js "https://x.example") (js "/")) as [url|] eqn:Hs;
    [|vm_compute in Hs; discriminate Hs].
  destruct (share_link_shape sample_state (js "https://x.example") (js "/") url
              eq_refl Hs) as (token & i & m & Hurl & _ & _ & _ & Hu & _).
  exists url, token, i, m. split; [reflexivity|]. split; assumption.
Defined.

(** ** Roles *)

Lemma step_approver w e :
  keeps_role e = true -> role w <> operator -> active (state w) <> done ->
  role (step w e) = role w /\ active (state (step w e)) <> done.
Proof.
  intros He Hr Ha. rewrite role_step, state_step.
  destruct e as [ts|f v|c now|r|o p]; try discriminate He; unfold update_of;
    (split; [reflexivity|]).
  - unfold advance. rewrite nextFor_spec_gate.
    destruct (spec_gate (role w) (active (state w))) as [n|] eqn:Hg; cbn [fst];
      [|exact Ha].
    unfold setActive. destruct (readonly (state w));
      cbn [default from_option Datatypes.id active]; [exact Ha|].
    destruct (role w), (active (state w)); try congruence;
      cbn [spec_gate] in Hg; try discriminate Hg; injection Hg as <-; discriminate.
  - cbn [default from_option Datatypes.id setField active]. exact Ha.
  - unfold reset. destruct c; cbn [negb default from_option Datatypes.id active];
      [discriminate | exact Ha].
  - cbn [default from_option Datatypes.id]. exact Ha.
Qed.

(** X16. Only the operator can complete the flow: while the role is [it] or
    [hob] and is not changed, no sequence of advances, edits, resets and
    shares brings a flow that is not at [done] to [done]. *)
Theorem approvers_cannot_complete (w : World) (es : list Event) :
  role w <> operator -> active (state w) <> done ->
  forallb keeps_role es = true ->
  active (state (run w es)) <> done.
Proof.
  intros Hr Ha Hes. revert w Hr Ha. induction es as [|e es IH]; intros w Hr Ha.
  - exact Ha.
  - cbn [forallb] in Hes. apply andb_true_iff in Hes as [He Hes].
    destruct (step_approver w e He Hr Ha) as [Hr' Ha'].
    unfold run in *. cbn [foldl]. apply (IH Hes); [congruence | exact Ha'].
Qed.

Lemma approvers_cannot_complete_witness :
  active (state (run (step sample_world (SetRole hob))
                   [Advance t3; Advance t3; Reset true t3; Advance t3])) <> done.
Proof.
  apply approvers_cannot_complete; [discriminate | discriminate | reflexivity].
Defined.

(** ** Fragments that are not tokens *)

Lemma list_ind4 {A} (P : list A -> Prop) :
  P [] -> (forall a, P [a]) -> (forall a b, P [a; b]) -> (forall a b c, P [a; b; c]) ->
  (forall a b c d r, P r -> P (a :: b :: c :: d :: r)) ->
  forall l, P l.
Proof.
  intros H0 H1 H2 H3 H4.
  assert (H : forall l, P l /\ (forall a, P (a :: l)) /\ (forall a b, P (a :: b :: l))
                        /\ (forall a b c, P (a :: b :: c :: l))).
  { induction l as [|d l (IH0 & IH1 & IH2 & IH3)].
    - split; [exact H0 | split; [exact H1 | split; [exact H2 | exact H3]]].
    - split; [apply IH1 | split; [intros a; apply IH2 | split; [intros a b; apply IH3|]]].
      intros a b c. apply H4, IH0. }
  intros l. apply H.
Qed.

(** [b64_decode] accepts only units of the alphabet. *)
Lemma b64_decode_alphabet d bs :
  b64_decode d = Some bs -> Forall (fun c => is_Some (b64_index c)) d.
Proof.
  revert bs. induction d as [|a|a b|a b c|a b c e r IH] using list_ind4; intros bs H.
  - constructor.
  - discriminate H.
  - cbn [b64_decode] in H.
    destruct (b64_index a) eqn:Ha; [|discriminate H].
    destruct (b64_index b) eqn:Hb; [|discriminate H].
    repeat constructor; rewrite ?Ha, ?Hb; eexists; reflexivity.
  - cbn [b64_decode] in H.
    destruct (b64_index a) eqn:Ha; [|discriminate H].
    destruct (b64_index b) eqn:Hb; [|discriminate H].
    destruct (b64_index c) eqn:Hc; [|discriminate H].
    repeat constructor; rewrite ?Ha, ?Hb, ?Hc; eexists; reflexivity.
  - cbn [b64_decode] in H.
    destruct (b64_index a) eqn:Ha; [|discriminate H].
    destruct (b64_index b) eqn:Hb; [|discriminate H].
    destruct (b64_index c) eqn:Hc; [|discriminate H].
    destruct (b64_index e) eqn:He; [|discriminate H].
    cbn [mbind option_bind] in H.
    destruct (b64_decode r) as [bs'|] eqn:Hr; [|discriminate H].
    repeat (constructor; [rewrite ?Ha, ?Hb, ?Hc, ?He; eexists; reflexivity|]).
    exact (IH bs' eq_refl).
Qed.

(** Removing the padding keeps the first unit of a text that starts with
    [#]. *)
Lemma strip_padding_hash t : exists t', strip_padding (35 :: t) = 35 :: t'.
Proof.
  unfold strip_padding. destruct (length (35%N :: t) mod 4 =? 0)%nat; [|eauto].
  rewrite reverse_cons.
  destruct (reverse t) as [|p [|q r]] eqn:Hr; cbn [app].
  - change (35 =? 61) with false. eauto.
  - destruct (p =? 61); [|eauto]. change (35 =? 61) with false.
    cbv iota. change (reverse [35]) with [35]. eauto.
  - destruct (p =? 61); [|eauto].
    destruct (q =? 61).
    + rewrite reverse_app. change (reverse [35]) with [35]. cbn [app]. eauto.
    + rewrite (reverse_cons (r ++ [35]) q), reverse_app.
      change (reverse [35]) with [35]. cbn [app]. eauto.
Qed.

Lemma atob_hash t : atob (35 :: t) = None.
Proof.
  unfold atob. rewrite filter_cons_True by reflexivity.
  destruct (strip_padding_hash (filter (fun c => is_ascii_ws c = false) t)) as [t' ->].
  destruct (b64_decode (35 :: t')) as [bs|] eqn:Hd; [|reflexivity].
  apply b64_decode_alphabet in Hd. inversion Hd as [|? ? [x Hx] _]; subst.
  discriminate Hx.
Qed.

(** X17. A fragment that is not a state token does not disturb the load:
    when [url.hash] is empty, or starts with [#] but not with [#state=],
    [bootstrap] goes on to the cache and the query as if there were no
    fragment. *)
Theorem other_fragments_are_ignored (url : Location) (store : gmap jstring jstring) :
  hash url = [] \/ (exists t, hash url = 35 :: t) ->
  expect (js "#state=") (hash url) = None ->
  decode (strip_state (hash url)) = None
  /\ bootstrap url store = bootstrap (mkLocation [] (searchParams url)) store.
Proof.
  intros Hh He.
  assert (Hd : decode (strip_state (hash url)) = None).
  { unfold strip_state. rewrite He. cbn [default from_option Datatypes.id].
    destruct Hh as [-> | [t ->]]; [apply decode_empty|].
    unfold decode. rewrite atob_hash. reflexivity. }
  split; [exact Hd|].
  rewrite (bootstrap_after_failed_token url store Hd).
  rewrite (bootstrap_after_failed_token (mkLocation [] (searchParams url)) store decode_empty).
  reflexivity.
Qed.

Lemma other_fragments_are_ignored_witness :
  bootstrap (mkLocation (js "#section-2") [(js "incidentId", js "INC-42")]) ∅
  = bootstrap (mkLocation [] [(js "incidentId", js "INC-42")]) ∅.
Proof.
  refine (proj2 (other_fragments_are_ignored
                   (mkLocation (js "#section-2") [(js "incidentId", js "INC-42")]) ∅ _ _)).
  - right. eexists. vm_compute. reflexivity.
  - vm_compute. reflexivity.
Defined.

(** ** The fuel of [JSON_parse] *)

Lemma skip_ws_length s : (length (skip_ws s) <= length s)%nat.
Proof.
  induction s as [|c r IH]; cbn [skip_ws]; [lia|].
  destruct (is_json_ws c); cbn [length]; lia.
Qed.

Lemma parse_string_length s : forall str rest,
  parse_string s = Some (str, rest) -> (length rest < length s)%nat.
Proof.
  induction s as [s IH] using (induction_ltof1 _ (@length N)).
  unfold ltof in IH. intros str rest H. destruct s as [|c r]; [discriminate H|].
  cbn [parse_string] in H. destruct (c =? 34).
  { injection H as _ <-. cbn [length]. lia. }
  destruct (c =? 92).
  - destruct r as [|e r1]; [discriminate H|]. destruct (e =? 117).
    + destruct r1 as [|h1 [|h2 [|h3 [|h4 r5]]]]; try discriminate H.
      destruct (hex4 h1 h2 h3 h4); [|discriminate H]. cbn [mbind option_bind] in H.
      destruct (parse_string r5) as [[str' rest']|] eqn:Hp; [|discriminate H].
      cbn [mbind option_bind fst snd] in H. injection H as _ <-.
      apply IH in Hp; cbn [length] in *; lia.
    + destruct (simple_escape e); [|discriminate H]. cbn [mbind option_bind] in H.
      destruct (parse_string r1) as [[str' rest']|] eqn:Hp; [|discriminate H].
      cbn [mbind option_bind fst snd] in H. injection H as _ <-.
      apply IH in Hp; cbn [length] in *; lia.
  - destruct (c <? 32); [discriminate H|].
    destruct (parse_string r) as [[str' rest']|] eqn:Hp; [|discriminate H].
    cbn [mbind option_bind fst snd] in H. injection H as _ <-.
    apply IH in Hp; cbn [length] in *; lia.
Qed.

Lemma digits_length s : (length (digits s).2 <= length s)%nat.
Proof.
  induction s as [|c r IH]; cbn [digits]; [reflexivity|].
  destruct (is_digit c); cbn [snd length]; lia.
Qed.

Lemma digits1_length s p : digits1 s = Some p -> (length p.2 <= length s)%nat.
Proof.
  unfold digits1. pose proof (digits_length s) as H.
  destruct (digits s) as [[|d ds] r]; [discriminate|]. intros [= <-]. exact H.
Qed.

Lemma expect_length lit : forall s r,
  expect lit s = Some r -> (length r <= length s)%nat.
Proof.
  induction lit as [|l lit IH]; intros s r H; cbn [expect] in H.
  - injection H as <-. lia.
  - destruct s as [|c s']; [discriminate H|]. destruct (c =? l); [|discriminate H].
    apply IH in H. cbn [length]. lia.
Qed.

Lemma parse_number_length s p :
  parse_number s = Some p -> (length p.2 < length s)%nat.
Proof.
  unfold parse_number.
  set (sign := match s with
               | c :: r => if c =? 45 then ([45], r) else ([], s)
               | [] => ([], s)
               end).
  assert (Hsign : (length sign.2 <= length s)%nat).
  { subst sign. destruct s as [|c r]; [reflexivity|].
    destruct (c =? 45); cbn [snd length]; lia. }
  destruct sign.2 as [|c r] eqn:Hs2; [discriminate|].
  assert (Hint : forall int,
             (if c =? 48 then Some ([48], r)
              else if between 49 57 c
                   then let p := digits r in Some (c :: p.1, p.2) else None) = Some int ->
             (length int.2 <= length r)%nat).
  { intros int. destruct (c =? 48); [intros [= <-]; reflexivity|].
    destruct (between 49 57 c); [|discriminate].
    intros [= <-]. apply digits_length. }
  destruct (if c =? 48 then _ else _) as [int|]; [|discriminate].
  specialize (Hint int eq_refl). cbn [mbind option_bind].
  assert (Hfrac : forall frac,
             match int.2 with
             | c :: r => if c =? 46 then p ← digits1 r; Some (46 :: p.1, p.2)
                         else Some ([], int.2)
             | [] => Some ([], int.2)
             end = Some frac -> (length frac.2 <= length int.2)%nat).
  { intros frac. destruct int.2 as [|c1 r1]; [intros [= <-]; reflexivity|].
    destruct (c1 =? 46); [|intros [= <-]; reflexivity].
    destruct (digits1 r1) as [p1|] eqn:Hd; [|discriminate].
    cbn [mbind option_bind]. intros [= <-]. apply digits1_length in Hd.
    cbn [snd length]. lia. }
  destruct (match int.2 with [] => _ | _ => _ end) as [frac|]; [|discriminate].
  specialize (Hfrac frac eq_refl). cbn [mbind option_bind].
  assert (Hexp : forall e,
             match frac.2 with
             | c :: r =>
                 if (c =? 101) || (c =? 69) then
                   let sg := match r with
                             | d :: r' => if (d =? 43) || (d =? 45) then ([d], r') else ([], r)
                             | [] => ([], r)
                             end in
                   p ← digits1 sg.2; Some (c :: sg.1 ++ p.1, p.2)
                 else Some ([], frac.2)
             | [] => Some ([], frac.2)
             end = Some e -> (length e.2 <= length frac.2)%nat).
  { intros e. destruct frac.2 as [|c1 r1]; [intros [= <-]; reflexivity|].
    destruct ((c1 =? 101) || (c1 =? 69)); [|intros [= <-]; reflexivity].
    cbv zeta.
    set (sg := match r1 with
               | d :: r' => if (d =? 43) || (d =? 45) then ([d], r') else ([], r1)
               | [] => ([], r1)
               end).
    assert (Hsg : (length sg.2 <= length r1)%nat).
    { subst sg. destruct r1 as [|d r']; [reflexivity|].
      destruct ((d =? 43) || (d =? 45)); cbn [snd length]; lia. }
    destruct (digits1 sg.2) as [p1|] eqn:Hd; [|discriminate].
    cbn [mbind option_bind]. intros [= <-]. apply digits1_length in Hd.
    cbn [snd length]. lia. }
  destruct (match frac.2 with [] => _ | _ => _ end) as [e|]; [|discriminate].
  specialize (Hexp e eq_refl). cbn [mbind option_bind].
  intros [= <-]. cbn [snd]. cbn [length] in Hsign. lia.
Qed.

Lemma adequate_zero : adequate_value 0 /\ adequate_members 0 /\ adequate_elements 0.
Proof. repeat split; intros; discriminate. Qed.

Lemma adequate_value_S m :
  adequate_members m -> adequate_elements m -> adequate_value (S m).
Proof.
  intros Hm He s v rest H. cbn [parse_value] in H.
  pose proof (skip_ws_length s) as Hws.
  destruct (skip_ws s) as [|c r] eqn:Hs; [discriminate H|]. cbn [length] in Hws.
  destruct (c =? 34) eqn:E1.
  { destruct (parse_string r) as [[str r1]|] eqn:Hp; [|discriminate H].
    cbn [mbind option_bind fst snd] in H. injection H as <- <-.
    pose proof (parse_string_length _ _ _ Hp). split; [lia|].
    intros [|n] Hn; [lia|]. cbn [parse_value]. rewrite Hs, E1, Hp. reflexivity. }
  destruct (c =? 123) eqn:E2.
  { pose proof (skip_ws_length r) as Hws2.
    destruct (skip_ws r) as [|d r'] eqn:Hs2; [discriminate H|]. cbn [length] in Hws2.
    destruct (d =? 125) eqn:E3.
    - injection H as <- <-. split; [lia|].
      intros [|n] Hn; [lia|]. cbn [parse_value]. rewrite Hs, E1, E2, Hs2, E3. reflexivity.
    - apply Hm in H as [Hlen Hfuel]. split; [lia|].
      intros [|n] Hn; [lia|]. cbn [parse_value]. rewrite Hs, E1, E2, Hs2, E3.
      apply Hfuel. lia. }
  destruct (c =? 91) eqn:E3.
  { pose proof (skip_ws_length r) as Hws2.
    destruct (skip_ws r) as [|d r'] eqn:Hs2; [discriminate H|]. cbn [length] in Hws2.
    destruct (d =? 93) eqn:E4.
    - injection H as <- <-. split; [lia|].
      intros [|n] Hn; [lia|]. cbn [parse_value]. rewrite Hs, E1, E2, E3, Hs2, E4.
      reflexivity.
    - apply He in H as [Hlen Hfuel]. split; [lia|].
      intros [|n] Hn; [lia|]. cbn [parse_value]. rewrite Hs, E1, E2, E3, Hs2, E4.
      apply Hfuel. lia. }
  destruct (c =? 116) eqn:E4.
  { destruct (expect (js "rue") r) as [r1|] eqn:Hx; [|discriminate H].
    cbn [mbind option_bind] in H. injection H as <- <-.
    pose proof (expect_length _ _ _ Hx). split; [lia|].
    intros [|n] Hn; [lia|]. cbn [parse_value]. rewrite Hs, E1, E2, E3, E4, Hx. reflexivity. }
  destruct (c =? 102) eqn:E5.
  { destruct (expect (js "alse") r) as [r1|] eqn:Hx; [|discriminate H].
    cbn [mbind option_bind] in H. injection H as <- <-.
    pose proof (expect_length _ _ _ Hx). split; [lia|].
    intros [|n] Hn; [lia|]. cbn [parse_value].
    rewrite Hs, E1, E2, E3, E4, E5, Hx. reflexivity. }
  destruct (c =? 110) eqn:E6.
  { destruct (expect (js "ull") r) as [r1|] eqn:Hx; [|discriminate H].
    cbn [mbind option_bind] in H. injection H as <- <-.
    pose proof (expect_length _ _ _ Hx). split; [lia|].
    intros [|n] Hn; [lia|]. cbn [parse_value].
    rewrite Hs, E1, E2, E3, E4, E5, E6, Hx. reflexivity. }
  destruct (parse_number (c :: r)) as [p|] eqn:Hp; [|discriminate H].
  cbn [mbind option_bind] in H. injection H as <- <-.
  pose proof (parse_number_length _ _ Hp) as Hl. cbn [length] in Hl. split; [lia|].
  intros [|n] Hn; [lia|]. cbn [parse_value].
  rewrite Hs, E1, E2, E3, E4, E5, E6, Hp. reflexivity.
Qed.

Lemma adequate_members_S m :
  adequate_value m -> adequate_members m -> adequate_members (S m).
Proof.
  intros Hv Hm acc s v rest H. cbn [parse_members] in H.
  pose proof (skip_ws_length s) as Hws.
  destruct (skip_ws s) as [|q r] eqn:Hs; [discriminate H|]. cbn [length] in Hws.
  destruct (q =? 34) eqn:E1; [|discriminate H].
  destruct (parse_string r) as [[k r1]|] eqn:Hp; [|discriminate H].
  cbn [mbind option_bind fst snd] in H.
  pose proof (parse_string_length _ _ _ Hp) as Hl1.
  pose proof (skip_ws_length r1) as Hws1.
  destruct (skip_ws r1) as [|colon r2] eqn:Hs1; [discriminate H|]. cbn [length] in Hws1.
  destruct (colon =? 58) eqn:E2; [|discriminate H].
  destruct (parse_value m r2) as [[v1 r3]|] eqn:Hpv; [|discriminate H].
  cbn [mbind option_bind fst snd] in H. cbv zeta in H.
  destruct (Hv _ _ _ Hpv) as [Hl3 Hf3].
  pose proof (skip_ws_length r3) as Hws3.
  destruct (skip_ws r3) as [|d r4] eqn:Hs3; [discriminate H|]. cbn [length] in Hws3.
  destruct (d =? 44) eqn:E3.
  - destruct (Hm _ _ _ _ H) as [Hl4 Hf4]. split; [lia|].
    intros [|n] Hn; [lia|]. cbn [parse_members]. rewrite Hs, E1, Hp.
    cbn [mbind option_bind fst snd]. rewrite Hs1, E2, (Hf3 n) by lia.
    cbn [mbind option_bind fst snd]. cbv zeta. rewrite Hs3, E3. apply Hf4. lia.
  - destruct (d =? 125) eqn:E4; [|discriminate H]. injection H as <- <-.
    split; [lia|].
    intros [|n] Hn; [lia|]. cbn [parse_members]. rewrite Hs, E1, Hp.
    cbn [mbind option_bind fst snd]. rewrite Hs1, E2, (Hf3 n) by lia.
    cbn [mbind option_bind fst snd]. cbv zeta. rewrite Hs3, E3, E4. reflexivity.
Qed.

Lemma adequate_elements_S m :
  adequate_value m -> adequate_elements m -> adequate_elements (S m).
Proof.
  intros Hv He acc s v rest H. cbn [parse_elements] in H.
  destruct (parse_value m s) as [[v1 r3]|] eqn:Hpv; [|discriminate H].
  cbn [mbind option_bind fst snd] in H.
  destruct (Hv _ _ _ Hpv) as [Hl3 Hf3].
  pose proof (skip_ws_length r3) as Hws3.
  destruct (skip_ws r3) as [|d r4] eqn:Hs3; [discriminate H|]. cbn [length] in Hws3.
  destruct (d =? 44) eqn:E3.
  - destruct (He _ _ _ _ H) as [Hl4 Hf4]. split; [lia|].
    intros [|n] Hn; [lia|]. cbn [parse_elements]. rewrite (Hf3 n) by lia.
    cbn [mbind option_bind fst snd]. rewrite Hs3, E3. apply Hf4. lia.
  - destruct (d =? 93) eqn:E4; [|discriminate H]. injection H as <- <-.
    split; [lia|].
    intros [|n] Hn; [lia|]. cbn [parse_elements]. rewrite (Hf3 n) by lia.
    cbn [mbind option_bind fst snd]. rewrite Hs3, E3, E4. reflexivity.
Qed.

Lemma adequate_all m : adequate_value m /\ adequate_members m /\ adequate_elements m.
Proof.
  induction m as [|m (Hv & Hm & He)]; [apply adequate_zero|].
  split; [apply adequate_value_S; assumption|].
  split; [apply adequate_members_S | apply adequate_elements_S]; assumption.
Qed.

(** X18. The fuel [JSON_parse] gives its parser is always enough: a text
    that the parser reads as one value followed by white space on some
    amount of fuel is read as the same value by [JSON_parse]; so
    [JSON_parse] fails only on texts that no amount of fuel parses. *)
Theorem JSON_parse_fuel_is_enough (m : nat) (text : jstring) (v : value) (rest : jstring) :
  parse_value m text = Some (v, rest) -> skip_ws rest = [] ->
  JSON_parse text = Some v.
Proof.
  intros H Hrest. destruct (adequate_all m) as (Hv & _).
  destruct (Hv _ _ _ H) as [_ Hf]. unfold JSON_parse.
  rewrite (Hf (S (length text))) by lia. cbn [mbind option_bind fst snd].
  rewrite Hrest. reflexivity.
Qed.

Lemma JSON_parse_fuel_is_enough_witness :
  JSON_parse (js "[[[[[[[[[[1]]]]]]]]]] ") =
  Some (VArr [VArr [VArr [VArr [VArr [VArr [VArr [VArr [VArr [VArr [VNum (js "1")]]]]]]]]]]).
Proof.
  apply (JSON_parse_fuel_is_enough 1000 _ _ (js " ")); vm_compute; reflexivity.
Defined.
